(** * bpython: the interactive session driver, embedded in Rocq

    A shallow embedding of three source files of bpython:

    - [bpython/curtsiesfrontend/preprocess.py]: the source-text pipeline
      ([indent_empty_lines], [leading_tabs_to_spaces], [preprocess],
      [find_first_identifier], [desugar]);
    - [bpython/curtsies.py]: the event coalescer ([_combined_events],
      [combined_events]), the driver ([FullCurtsiesRepl.on_suspend],
      [after_suspend], [process_event], [mainloop]) and [main];
    - [bpython/curtsiesfrontend/filewatch.py]: the file-watch collaborator
      and its fallback when [watchdog] cannot be imported.

    Python [str] values are sequences of characters; they are modelled as
    [list ascii] (code points 0..255), so that the list library applies.
    Dictionaries are [gmap]s, generators are explicit state machines, and
    exceptions are values of a result type. *)

From Stdlib Require Import ZArith Ascii String Bool Lia.
From stdpp Require Import gmap strings list.

Set Warnings "-register-all".
Open Scope list_scope.

(** ** Python strings *)

Module PyStr.

Abbreviation str := (list ascii).

(** Literals are written as Rocq strings and converted. *)
Notation "'py' s" := (list_ascii_of_string s%string) (at level 9, s at level 0, only parsing).

Definition nl : ascii := "010"%char.
Definition tab : ascii := "009"%char.
Definition space : ascii := " "%char.
Definition bang : ascii := "!"%char.

Definition ascii_eqb (a b : ascii) : bool := Ascii.eqb a b.

(** [str.isspace] and the regular expression class [\s] on a [str] pattern:
    the code points below 256 that Python counts as white space. *)
Definition is_space (c : ascii) : bool :=
  let n := nat_of_ascii c in
  ((9 <=? n) && (n <=? 13)) || ((28 <=? n) && (n <=? 32)) || (n =? 133) || (n =? 160).

(** Membership in [string.ascii_letters]. *)
Definition is_ascii_letter (c : ascii) : bool :=
  let n := nat_of_ascii c in
  ((65 <=? n) && (n <=? 90)) || ((97 <=? n) && (n <=? 122)).

Fixpoint takewhile (P : ascii -> bool) (s : str) : str :=
  match s with
  | [] => []
  | c :: s' => if P c then c :: takewhile P s' else []
  end.

Fixpoint dropwhile (P : ascii -> bool) (s : str) : str :=
  match s with
  | [] => []
  | c :: s' => if P c then dropwhile P s' else s
  end.

(** [s.startswith(p)] *)
Fixpoint startswith (s p : str) : bool :=
  match p, s with
  | [], _ => true
  | _ :: _, [] => false
  | a :: p', b :: s' => ascii_eqb a b && startswith s' p'
  end.

(** [s.endswith(suffix)] *)
Definition endswith (s suffix : str) : bool :=
  startswith (rev s) (rev suffix).

(** [s.removesuffix(suffix)] *)
Definition removesuffix (s suffix : str) : str :=
  if endswith s suffix then take (length s - length suffix) s else s.

(** [s.strip(chars)], with the character set given as a predicate. *)
Definition strip (P : ascii -> bool) (s : str) : str :=
  rev (dropwhile P (rev (dropwhile P s))).

(** [s.partition(c)] for a one-character separator: the text before the
    first [c], whether [c] was found, and the text after it. *)
Fixpoint partition (c : ascii) (s : str) : str * bool * str :=
  match s with
  | [] => ([], false, [])
  | a :: s' =>
      if ascii_eqb a c then ([], true, s')
      else let '(l, found, r) := partition c s' in (a :: l, found, r)
  end.

(** [s.rpartition(c)] for a one-character separator: split at the last
    [c]; when there is none, Python returns [("", "", s)]. *)
Definition rpartition (c : ascii) (s : str) : str * str * str :=
  let '(after_rev, found, before_rev) := partition c (rev s) in
  if found then (rev before_rev, [c], rev after_rev)
  else ([], [], s).

(** [s.split(c)] for a one-character separator. *)
Fixpoint split (c : ascii) (s : str) : list str :=
  match s with
  | [] => [[]]
  | a :: s' =>
      if ascii_eqb a c then [] :: split c s'
      else match split c s' with
           | [] => [[a]]
           | l :: ls => (a :: l) :: ls
           end
  end.

(** [sep.join(lines)] for a one-character separator. *)
Fixpoint join (c : ascii) (ls : list str) : str :=
  match ls with
  | [] => []
  | [l] => l
  | l :: ls' => l ++ c :: join c ls'
  end.

(** A line is free of the separator. *)
Definition sep_free (c : ascii) (l : str) : Prop := Forall (fun a => a <> c) l.

End PyStr.

Import PyStr.

(** ** Exceptions *)

(** The exceptions that the embedded code raises or handles. *)
Inductive exn : Type :=
  | DesugaringException (msg : str)
  | IndexError
  | KeyError (key : string)
  | AttributeError (attr : string)
  | ValueError
  | SystemExit (args : list Z)
  | SystemExitFromCodeGreenlet (args : list Z).

Inductive result (A : Type) : Type :=
  | Ok (a : A)
  | Raise (e : exn).

Arguments Ok {A} a.
Arguments Raise {A} e.

(** ** preprocess.py *)

Module Preprocess.

(** *** Indentation repair *)

(** [indent_empty_lines_re = r"\s*"]: [match(line).group()] is the longest
    prefix of white space, which always exists. *)
Definition indent_empty_lines_re_match (line : str) : str :=
  takewhile is_space line.

(** [min([p, n], key=len)]: the first of the two that has minimal length. *)
Definition min_by_len (p n : str) : str :=
  if length n <? length p then n else p.

(** [zip(prevs, lines, nexts)], which stops with the shortest argument. *)
Fixpoint zip3 {A} (xs ys zs : list A) : list (A * A * A) :=
  match xs, ys, zs with
  | x :: xs', y :: ys', z :: zs' => (x, y, z) :: zip3 xs' ys' zs'
  | _, _, _ => []
  end.

(** The body of the [for] loop: what is appended to [result_lines]. *)
Definition repair_line (t : str * str * str) : str :=
  let '(p_line, line, n_line) := t in
  if length line =? 0 then
    let p_indent := indent_empty_lines_re_match p_line in
    let n_indent := indent_empty_lines_re_match n_line in
    min_by_len p_indent n_indent ++ line
  else line.

(** [initial_lines] after the optional [pop()], with [ends_with_newline]. *)
Definition pop_trailing_empty (initial_lines : list str) : bool * list str :=
  match last initial_lines with
  | Some [] => (true, removelast initial_lines)
  | _ => (false, initial_lines)
  end.

(** The loop over [zip(prevs, lines, nexts)] when [prevs] starts with
    [first_prev]; the source starts it with the empty string. *)
Definition repair_from (first_prev : str) (initial_lines : list str) : list str :=
  let prevs := first_prev :: initial_lines in
  let lines := initial_lines in
  let nexts := drop 1 initial_lines ++ [[]] in
  map repair_line (zip3 prevs lines nexts).

(** The three iterators built with [tee], [chain] and [islice]. *)
Definition repair_lines (initial_lines : list str) : list str :=
  repair_from [] initial_lines.

(** [indent_empty_lines(s, compiler)]; the compiler argument is unused. *)
Definition indent_empty_lines {C : Type} (s : str) (compiler : C) : str :=
  let '(ends_with_newline, initial_lines) := pop_trailing_empty (split nl s) in
  let result_lines := repair_lines initial_lines in
  join nl result_lines ++ (if ends_with_newline then [nl] else []).

(** *** Tabs *)

(** [tabs_to_spaces_re.sub(tab_to_space, line)] with the pattern [^\t+]:
    a non-empty run of tabs at the start of the line is the only match. *)
Definition tab_to_space (m : str) : str := replicate (length m * 4) space.

Definition tabs_to_spaces_re_sub (line : str) : str :=
  match takewhile (fun c => ascii_eqb c tab) line with
  | [] => line
  | m => tab_to_space m ++ drop (length m) line
  end.

Definition leading_tabs_to_spaces (s : str) : str :=
  join nl (map tabs_to_spaces_re_sub (split nl s)).

Definition preprocess {C : Type} (s : str) (compiler : C) : str :=
  indent_empty_lines (leading_tabs_to_spaces s) compiler.

(** *** The lines of a text, for stating what the pipeline does *)

(** The line in front of line [i], the empty string in front of the first. *)
Definition line_before (L : list str) (i : nat) : str :=
  match i with
  | O => []
  | S j => default [] (L !! j)
  end.

(** The line after line [i], the empty string after the last. *)
Definition line_after (L : list str) (i : nat) : str :=
  default [] (L !! S i).

(** The longest prefix of white space of a line. *)
Definition leading_whitespace (line : str) : str := takewhile is_space line.

(** The shorter of two prefixes by number of characters, the first of them
    when they are equally long. *)
Definition shorter (p n : str) : str :=
  if length p <=? length n then p else n.

(** The lines of a text: the parts between newlines, without the empty part
    that follows a final newline. *)
Definition text_lines (s : str) : list str :=
  snd (pop_trailing_empty (split nl s)).

Definition ends_with_newline (s : str) : bool :=
  fst (pop_trailing_empty (split nl s)).

(** *** Desugaring *)

(** The part of a syntax tree that [NodeVisitor] looks at: the class of a
    node and its child nodes in field order. *)
Inductive NodeClass : Type := Name | Attribute | OtherNode.

Inductive ast_node : Type :=
  | AstNode (cls : NodeClass) (children : list ast_node).

(** What [ast.parse] does: it returns a tree, raises the [SyntaxError]
    that [find_first_identifier] handles, or raises another exception: in
    CPython 3.11 a [ValueError] for a source with a null character, a
    [RecursionError] or a [MemoryError] for a source that is nested too
    deep. *)
Inductive parse_result : Type :=
  | Parsed (tree : ast_node)
  | SyntaxError
  | ParseRaises (err : exn).

Definition dquote : ascii := "034"%char.

(** The null character. *)
Definition nul : ascii := "000"%char.

(** All nodes of a tree in pre-order, and the test for a name or attribute
    reference; they state which node the visitor finds first. *)
Fixpoint preorder (node : ast_node) : list ast_node :=
  match node with
  | AstNode _ children => node :: flat_map preorder children
  end.

Definition is_reference (node : ast_node) : bool :=
  match node with
  | AstNode Name _ | AstNode Attribute _ => true
  | AstNode OtherNode _ => false
  end.

Section Desugar.

(** The standard library's [ast.parse] and [ast.unparse]; [ast.unparse]
    too may raise, a [RecursionError] on a deep tree. *)
Variable ast_parse : str -> parse_result.
Variable ast_unparse : ast_node -> result str.

(** [NodeVisitor.visit]: [visit_Name] and [visit_Attribute] append the
    unparsed node to [self.exprs] and do not descend; every other node is
    handled by [generic_visit], which visits the children in order.  The
    result is what the walk appends to [self.exprs], or the exception that
    ends it. *)
Fixpoint visit (node : ast_node) : result (list str) :=
  match node with
  | AstNode OtherNode children =>
      (fix generic_visit (nodes : list ast_node) : result (list str) :=
         match nodes with
         | [] => Ok []
         | child :: rest =>
             match visit child with
             | Raise err => Raise err
             | Ok exprs =>
                 match generic_visit rest with
                 | Raise err => Raise err
                 | Ok exprs' => Ok (exprs ++ exprs')
                 end
             end
         end) children
  | AstNode _ _ =>
      match ast_unparse node with
      | Raise err => Raise err
      | Ok text => Ok [text]
      end
  end.

(** The loop of [generic_visit] over the children of a node. *)
Fixpoint visit_all (nodes : list ast_node) : result (list str) :=
  match nodes with
  | [] => Ok []
  | child :: rest =>
      match visit child with
      | Raise err => Raise err
      | Ok exprs =>
          match visit_all rest with
          | Raise err => Raise err
          | Ok exprs' => Ok (exprs ++ exprs')
          end
      end
  end.

(** What the first name or attribute node of a tree, in pre-order, has to
    do with the walk: when there is none, nothing is unparsed and the walk
    records nothing; when there is one, it is the first node unparsed, and
    a walk that ends records its text first. *)
Definition first_reference_visited (node : ast_node) : Prop :=
  match List.find is_reference (preorder node) with
  | None => visit node = Ok []
  | Some ref =>
      match ast_unparse ref with
      | Raise err => visit node = Raise err
      | Ok text =>
          forall exprs, visit node = Ok exprs -> head exprs = Some text
      end
  end.

(** [exprs[0]] *)
Definition subscript0 (exprs : list str) : result str :=
  match exprs with
  | [] => Raise IndexError
  | e :: _ => Ok e
  end.

(** Lines 70 to 79. Only [SyntaxError] is caught; any other exception of
    [ast.parse] or of the visitor leaves the function. *)
Definition find_first_identifier (source : str) : result str :=
  match ast_parse source with
  | SyntaxError => Raise (DesugaringException (py "invalid syntax"))
  | ParseRaises err => Raise err
  | Parsed ast_tree =>
      match visit ast_tree with
      | Raise err => Raise err
      | Ok exprs =>
          if length exprs <? 1 then
            Raise (DesugaringException (py "no identifier names in source"))
          else subscript0 exprs
      end
  end.

Definition doc_print (identifier : str) : str :=
  py "print(" ++ identifier ++ py ".__doc__ or " ++ [dquote] ++ py "'"
    ++ identifier ++ py "' has no docstring" ++ [dquote] ++ py ")".

Definition fallback_print (exc : str) : str :=
  py "print('Unable to find docs (" ++ exc ++ py ")')".

(** Lines 87 and 88: the clause [except DesugaringException as exc]; any
    other exception leaves [desugar]. *)
Definition except_DesugaringException (err : exn) : result str :=
  match err with
  | DesugaringException exc => Ok (fallback_print exc)
  | _ => Raise err
  end.

Definition desugar (source : str) : result str :=
  if endswith source (py "??") then
    match find_first_identifier
            (removesuffix (strip is_space source) (py "??")) with
    | Ok identifier => Ok (doc_print identifier)
    | Raise err => except_DesugaringException err
    end
  else if endswith (strip is_ascii_letter source) (py "!") then
    let '(left_, _, right_) := rpartition bang source in
    Ok (right_ ++ py "(" ++ left_ ++ py ")")
  else Ok source.

End Desugar.

(** A parser and an unparser for examples. As in CPython 3.11, a text with
    a null character raises [ValueError]; the one text that parses is
    [foo], to a module whose expression statement holds the name. *)
Definition example_parse (text : str) : parse_result :=
  if existsb (ascii_eqb nul) text then ParseRaises ValueError
  else if decide (text = py "foo")
  then Parsed (AstNode OtherNode [AstNode OtherNode [AstNode Name []]])
  else SyntaxError.

Definition example_unparse (node : ast_node) : result str := Ok (py "foo").

End Preprocess.

(** ** curtsies.py: events *)

(** The key names that the input generator produces are strings. *)
Abbreviation Key := string.

(** The event classes of [curtsies.events] and [bpython.curtsiesfrontend.events]
    that the driver names or receives. *)
Inductive Event : Type :=
  | RefreshRequestEvent
  | ScheduledRefreshRequestEvent
  | ReloadEvent
  | UndoEvent
  | RunStartupFileEvent
  | SigIntEvent
  | WindowChangeEvent (rows columns : Z)
  | PasteEvent (events : list Key).

(** A value sent through the event generators: an instance of
    [curtsies.events.Event] (a structured event), [None] (a timeout), or
    anything else, which is a key press. *)
Inductive Raw : Type :=
  | Structured (e : Event)
  | Timeout
  | Keystroke (k : Key).

(** A timeout argument: [None] or a number. *)
Abbreviation timeout_t := (option Z).

(** ** curtsies.py: the event coalescer *)

Module Coalescer.

(** Where the generator [_combined_events] is suspended: at the first
    [yield] (line 206), at one of the [yield]s that are followed by the top
    of the [while True] loop (lines 211, 214, 226), or at the [yield] inside
    the draining loop (line 229). *)
Inductive Pc : Type := AtPrime | AtYield | AtDrain.

(** The local state of the generator. *)
Record Gen : Type := mkGen { pc : Pc; queue : list Key }.

Section Generator.

(** The event provider: an object with a [send(timeout)] method, and [P] the
    state behind it. *)
Variable P : Type.
Variable provider_send : timeout_t -> P -> Raw * P.

Variable paste_threshold : Z.

(** Lines 218 to 221: the first [event_provider.send(0)] and the probing
    loop. The result is the queue, the value that stopped the loop and the
    provider. *)
Fixpoint probe (fuel : nat) (queue : list Key) (p : P) : option (list Key * Raw * P) :=
  match fuel with
  | O => None
  | S fuel' =>
      let '(e, p') := provider_send (Some 0%Z) p in
      match e with
      | Keystroke k => probe fuel' (queue ++ [k]) p'
      | _ => Some (queue, e, p')
      end
  end.

(** The [while True] loop of [_combined_events], run from its top to the
    next [yield]: the yielded value, the new local state and the provider.
    The fuel bounds the probing and the passes of the loop that yield
    nothing. *)
Fixpoint _combined_events (fuel : nat) (timeout : timeout_t) (queue : list Key) (p : P)
  : option (Raw * Gen * P) :=
  match fuel with
  | O => None
  | S fuel' =>
      let '(e, p1) := provider_send timeout p in
      match e with
      | Structured ev => Some (Structured ev, mkGen AtYield queue, p1)
      | Timeout => Some (Timeout, mkGen AtYield queue, p1)
      | Keystroke k =>
          match probe fuel (queue ++ [k]) p1 with
          | None => None
          | Some (queue', _, p2) =>
              if (paste_threshold <=? Z.of_nat (length queue'))%Z then
                Some (Structured (PasteEvent queue'), mkGen AtYield [], p2)
              else
                match queue' with
                | k0 :: rest => Some (Keystroke k0, mkGen AtDrain rest, p2)
                | [] => _combined_events fuel' timeout [] p2
                end
          end
      end
  end.

(** [g.send(timeout)] on a generator that was started. *)
Definition send (fuel : nat) (timeout : timeout_t) (g : Gen) (p : P)
  : option (Raw * Gen * P) :=
  match pc g with
  | AtPrime => _combined_events fuel timeout [] p
  | AtYield => _combined_events fuel timeout (queue g) p
  | AtDrain =>
      match queue g with
      | k0 :: rest => Some (Keystroke k0, mkGen AtDrain rest, p)
      | [] => _combined_events fuel timeout [] p
      end
  end.

(** A run of key presses as the probing loop meets it: from [p], the
    non-blocking reads give the key presses [ks] and then [u], which is not
    a key press, and leave the provider at [p']. *)
Inductive probes : P -> list Key -> Raw -> P -> Prop :=
  | probes_stop p u p' :
      provider_send (Some 0%Z) p = (u, p') ->
      match u with Keystroke _ => False | _ => True end ->
      probes p [] u p'
  | probes_key p k p1 ks u p' :
      provider_send (Some 0%Z) p = (Keystroke k, p1) ->
      probes p1 ks u p' ->
      probes p (k :: ks) u p'.

(** Several [send]s in a row, and what they yield. *)
Fixpoint sends (fuel : nat) (timeouts : list timeout_t) (g : Gen) (p : P)
  : option (list Raw * Gen * P) :=
  match timeouts with
  | [] => Some ([], g, p)
  | t :: ts =>
      match send fuel t g p with
      | None => None
      | Some (y, g', p') =>
          match sends fuel ts g' p' with
          | None => None
          | Some (ys, g'', p'') => Some (y :: ys, g'', p'')
          end
      end
  end.

End Generator.

(** [combined_events(event_provider, paste_threshold=3)]: the generator
    after [next(g)], suspended at its first [yield]. *)
Definition combined_events : Gen := mkGen AtPrime [].

Definition default_paste_threshold : Z := 3.

(** An event provider that replays a script of values and reports a timeout
    once the script is used up. *)
Definition script_send (timeout : timeout_t) (script : list Raw) : Raw * list Raw :=
  match script with
  | [] => (Timeout, [])
  | u :: script' => (u, script')
  end.

Definition is_keystroke (u : Raw) : bool :=
  match u with Keystroke _ => true | _ => false end.

(** The value that ends a probe of a script: its first value, or the timeout
    of a script that is used up. *)
Definition stopper (rest : list Raw) : Raw :=
  match rest with
  | [] => Timeout
  | u :: _ => u
  end.

(** The generator has no key press left to yield. *)
Definition idle (g : Gen) : Prop := pc g = AtPrime \/ queue g = [].

End Coalescer.

(** ** curtsies.py: the driver *)

Module Driver.

(** The two context managers of the terminal: the window
    ([curtsies.window.CursorAwareWindow], exclusive access to the screen)
    and the input generator ([curtsies.input.Input], raw-mode capture). *)
Inductive Resource : Type := Window | InputGenerator.

(** The three kinds of trigger of [curtsies.input.Input]. *)
Inductive Flavor : Type := Immediate | Scheduled | Threadsafe.

(** The callbacks registered in [FullCurtsiesRepl.__init__]. *)
Inductive Trigger : Type :=
  | _request_refresh
  | _schedule_refresh
  | _request_reload
  | interrupting_refresh
  | request_undo.

(** Lines 46 to 55: the registration call of each callback, and the value
    that its event constructor returns; the constructor of
    [interrupting_refresh] is [lambda: None]. *)
Definition trigger_flavor (t : Trigger) : Flavor :=
  match t with
  | _request_refresh => Immediate
  | _schedule_refresh => Scheduled
  | _request_reload => Threadsafe
  | interrupting_refresh => Threadsafe
  | request_undo => Immediate
  end.

Definition trigger_event (t : Trigger) : Raw :=
  match t with
  | _request_refresh => Structured RefreshRequestEvent
  | _schedule_refresh => Structured ScheduledRefreshRequestEvent
  | _request_reload => Structured ReloadEvent
  | interrupting_refresh => Timeout
  | request_undo => Structured UndoEvent
  end.

(** The arguments of a call of [paint]: none, or the two keywords of the
    exit path. *)
Inductive PaintArgs : Type :=
  | NoArgs
  | ExitArgs (about_to_exit user_quit : bool).

(** The calls that leave the driver, in the order they are made. A dispatch
    is recorded with the names bound in the interpreter's namespace at the
    time of the call. *)
Inductive Action : Type :=
  | AExit (res : Resource)
  | AEnter (res : Resource)
  | AEnqueue (flavor : Flavor) (payload : Raw)
  | ADispatch (e : Raw) (bound : gset string)
  | APaint (args : PaintArgs)
  | ARender (scrolled : Z).

(** The collaborators of the driver, over the state [X] that they share
    (terminal, window, input generator, the rest of the REPL), the values
    [Value] of the interpreter and the painted frames [Frame] (an array with
    a cursor position). The two methods of [BaseRepl] are called on the
    object itself: they are given [self.scroll_offset] and return the value
    they leave in it. *)
Record Externals (X Value Frame : Type) : Type := mkExternals {
  (** [BaseRepl.process_event(self, e)] *)
  base_process_event :
    Raw -> Z -> gmap string Value -> X
    -> result unit * Z * gmap string Value * X;
  (** [self.paint(...)] *)
  paint : PaintArgs -> Z -> X -> Frame * Z * X;
  (** [self.window.render_to_terminal(array, cursor_pos)] *)
  render_to_terminal : Frame -> X -> Z * X;
  (** [self.coderunner.interp.runsource(source)] *)
  runsource : string -> gmap string Value -> X -> gmap string Value * X;
  (** [self.input_generator.send(timeout)] *)
  input_send : timeout_t -> X -> Raw * X;
  (** [__exit__(None, None, None)] and [__enter__()] of a context manager *)
  context_exit : Resource -> X -> X;
  context_enter : Resource -> X -> X;
  (** a trigger callback: the value made by its event constructor is put
      into the queue of the input generator *)
  enqueue : Flavor -> Raw -> X -> X;
  (** the driver object as a value of the interpreter *)
  self_value : Value
}.

Arguments base_process_event {X Value Frame}.
Arguments paint {X Value Frame}.
Arguments render_to_terminal {X Value Frame}.
Arguments runsource {X Value Frame}.
Arguments input_send {X Value Frame}.
Arguments context_exit {X Value Frame}.
Arguments context_enter {X Value Frame}.
Arguments enqueue {X Value Frame}.
Arguments self_value {X Value Frame}.

(** How a loop of the driver stands when its fuel is used up or it ends. *)
Inductive Outcome : Type :=
  | Returned
  | Raised (e : exn)
  | Running.

Section Repl.

Context {X Value Frame : Type}.
Variable E : Externals X Value Frame.

(** The state of a [FullCurtsiesRepl]: [scroll_offset], the namespace
    [coderunner.interp.locals], the collaborators' state and the record of
    the calls made so far. *)
Record Repl : Type := mkRepl {
  scroll_offset : Z;
  locals : gmap string Value;
  world : X;
  trace : list Action
}.

Definition log (a : Action) (r : Repl) : Repl :=
  mkRepl (scroll_offset r) (locals r) (world r) (trace r ++ [a]).

Definition set_world (w : X) (r : Repl) : Repl :=
  mkRepl (scroll_offset r) (locals r) w (trace r).

Definition set_locals (ns : gmap string Value) (r : Repl) : Repl :=
  mkRepl (scroll_offset r) ns (world r) (trace r).

Definition set_scroll_offset (so : Z) (r : Repl) : Repl :=
  mkRepl so (locals r) (world r) (trace r).

Definition do_exit (res : Resource) (r : Repl) : Repl :=
  log (AExit res) (set_world (context_exit E res (world r)) r).

Definition do_enter (res : Resource) (r : Repl) : Repl :=
  log (AEnter res) (set_world (context_enter E res (world r)) r).

(** Calling one of the registered callbacks. *)
Definition call_trigger (t : Trigger) (r : Repl) : Repl :=
  log (AEnqueue (trigger_flavor t) (trigger_event t))
      (set_world (enqueue E (trigger_flavor t) (trigger_event t) (world r)) r).

Definition on_suspend (r : Repl) : Repl :=
  let r := do_exit Window r in
  do_exit InputGenerator r.

Definition after_suspend (r : Repl) : Repl :=
  let r := do_enter InputGenerator r in
  let r := do_enter Window r in
  call_trigger interrupting_refresh r.

(** The three statements shared by the two branches of [process_event]:
    paint, render, add to [scroll_offset]. *)
Definition paint_and_render (args : PaintArgs) (r : Repl) : Repl :=
  let '(frame, so, w1) := paint E args (scroll_offset r) (world r) in
  let r := log (APaint args) (set_scroll_offset so (set_world w1 r)) in
  let '(scrolled, w2) := render_to_terminal E frame (world r) in
  let r := log (ARender scrolled) (set_world w2 r) in
  mkRepl (scroll_offset r + scrolled) (locals r) (world r) (trace r).

(** [isinstance(err, SystemExitFromCodeGreenlet)] *)
Definition isinstance_SystemExitFromCodeGreenlet (err : exn) : bool :=
  match err with
  | SystemExitFromCodeGreenlet _ => true
  | _ => false
  end.

(** The exceptions caught by [except (SystemExitFromCodeGreenlet, SystemExit)]. *)
Definition is_termination (err : exn) : bool :=
  match err with
  | SystemExit _ | SystemExitFromCodeGreenlet _ => true
  | _ => false
  end.

(** The [try] statement of [process_event] for an [e] that is not [None]:
    the dispatch, the [except] clause that paints and raises again, the
    [else] clause that paints; any other exception passes through. *)
Definition dispatch_then_paint (e : Raw) (r : Repl) : result unit * Repl :=
  let '(out, so, ns, w) :=
    base_process_event E e (scroll_offset r) (locals r) (world r) in
  let r1 := log (ADispatch e (dom (locals r)))
                (set_scroll_offset so (set_world w (set_locals ns r))) in
  match out with
  | Ok _ => (Ok tt, paint_and_render NoArgs r1)
  | Raise err =>
      if is_termination err then
        (Raise err,
         paint_and_render
           (ExitArgs true (isinstance_SystemExitFromCodeGreenlet err)) r1)
      else (Raise err, r1)
  end.

(** [process_event(self, e)]; [Timeout] stands for [None]. *)
Definition process_event (e : Raw) (r : Repl) : result unit * Repl :=
  match e with
  | Timeout => (Ok tt, paint_and_render NoArgs r)
  | _ => dispatch_then_paint e r
  end.

(** [del self.coderunner.interp.locals[name]] *)
Definition del_local (name : string) (r : Repl) : result unit * Repl :=
  match locals r !! name with
  | Some _ => (Ok tt, set_locals (delete name (locals r)) r)
  | None => (Raise (KeyError name), r)
  end.

Definition do_runsource (source : string) (r : Repl) : Repl :=
  let '(ns, w) := runsource E source (locals r) (world r) in
  set_world w (set_locals ns r).

Definition import_helper_source : string :=
  "from bpython.curtsiesfrontend._internal import _Helper".

Definition bind_help_source : string :=
  String.append "help = _Helper(_repl)" (String "010"%char EmptyString).

(** Lines 104 to 118 of [mainloop]: the branch [if interactive]. *)
Definition warm_up (r : Repl) : result unit * Repl :=
  let r := set_locals (<["_repl"%string := self_value E]> (locals r)) r in
  let r := do_runsource import_helper_source r in
  let r := do_runsource bind_help_source r in
  match del_local "_repl" r with
  | (Raise err, r) => (Raise err, r)
  | (Ok _, r) =>
      match del_local "_Helper" r with
      | (Raise err, r) => (Raise err, r)
      | (Ok _, r) => process_event (Structured RunStartupFileEvent) r
      end
  end.

Abbreviation gen_send := (Coalescer.send X (input_send E) Coalescer.default_paste_threshold).

(** Lines 127 to 130: one [inputs.send(0)] for each item of
    [find_iterator], which has [steps] items left. *)
Fixpoint scan_loop (fuel steps : nat) (inputs : Coalescer.Gen) (r : Repl)
  : Outcome * Coalescer.Gen * Repl :=
  match steps with
  | O => (Returned, inputs, r)
  | S steps' =>
      match gen_send fuel (Some 0%Z) inputs (world r) with
      | None => (Running, inputs, r)
      | Some (e, inputs', w) =>
          let r := set_world w r in
          match e with
          | Timeout => scan_loop fuel steps' inputs' r
          | _ =>
              match process_event e r with
              | (Ok _, r) => scan_loop fuel steps' inputs' r
              | (Raise err, r) => (Raised err, inputs', r)
              end
          end
      end
  end.

(** Lines 132 and 133: [for e in inputs: process_event(e)], followed for
    [rounds] iterations. *)
Fixpoint event_loop (fuel rounds : nat) (inputs : Coalescer.Gen) (r : Repl)
  : Outcome * Coalescer.Gen * Repl :=
  match rounds with
  | O => (Running, inputs, r)
  | S rounds' =>
      match gen_send fuel None inputs (world r) with
      | None => (Running, inputs, r)
      | Some (e, inputs', w) =>
          match process_event e (set_world w r) with
          | (Ok _, r) => event_loop fuel rounds' inputs' r
          | (Raise err, r) => (Raised err, inputs', r)
          end
      end
  end.

(** [mainloop(self, interactive, paste)]. The iterator [find_iterator] has
    [steps] items; the last loop is followed for [rounds] iterations. *)
Definition mainloop (interactive : bool) (paste : option Event)
    (fuel steps rounds : nat) (r : Repl) : Outcome * Repl :=
  match (if interactive then warm_up r else (Ok tt, r)) with
  | (Raise err, r) => (Raised err, r)
  | (Ok _, r) =>
      match (match paste with
             | Some ev => process_event (Structured ev) r
             | None => (Ok tt, r)
             end) with
      | (Raise err, r) => (Raised err, r)
      | (Ok _, r) =>
          match process_event Timeout r with
          | (Raise err, r) => (Raised err, r)
          | (Ok _, r) =>
              let inputs := Coalescer.combined_events in
              match scan_loop fuel steps inputs r with
              | (Returned, inputs, r) =>
                  let '(out, _, r) := event_loop fuel rounds inputs r in (out, r)
              | (out, _, r) => (out, r)
              end
          end
      end
  end.

(** The amounts reported by the renderer in a record of calls, and their
    sum. *)
Definition scrolled_amounts (tr : list Action) : list Z :=
  omap (fun a => match a with ARender z => Some z | _ => None end) tr.

Definition scrolled_total (tr : list Action) : Z :=
  foldr Z.add 0%Z (scrolled_amounts tr).

(** The calls of [paint] in a record of calls. *)
Definition paints (tr : list Action) : list PaintArgs :=
  omap (fun a => match a with APaint args => Some args | _ => None end) tr.

(** The context managers left and entered, in order, and the values put
    into the queue of the input generator. *)
Definition released (tr : list Action) : list Resource :=
  omap (fun a => match a with AExit res => Some res | _ => None end) tr.

Definition acquired (tr : list Action) : list Resource :=
  omap (fun a => match a with AEnter res => Some res | _ => None end) tr.

Definition enqueued (tr : list Action) : list Raw :=
  omap (fun a => match a with AEnqueue _ payload => Some payload | _ => None end) tr.

(** The sets of bound names recorded at the dispatches. *)
Definition dispatch_namespaces (tr : list Action) : list (gset string) :=
  omap (fun a => match a with ADispatch _ bound => Some bound | _ => None end) tr.

End Repl.

Arguments Repl : clear implicits.

End Driver.

(** ** The claims about the driver as the specification words them, and
    collaborators for examples *)

Module DriverClaims.

Import Driver.

Section Claims.

Context {X Value Frame : Type}.
Variable E : Externals X Value Frame.

(** The calls added to the record between two states. *)
Definition new_calls (before after : Repl X Value) : list Action :=
  drop (length (trace before)) (trace after).

(** Suspend and resume as the specification has them: both context
    managers are released, they are entered again in the order they were
    released, one refresh event is put into the queue, and [scroll_offset]
    keeps its value. *)
Definition suspend_resume_as_specified (r : Repl X Value) : Prop :=
  let r1 := on_suspend E r in
  let r2 := after_suspend E r1 in
  (released (new_calls r r1) ≡ₚ [Window; InputGenerator])
  /\ acquired (new_calls r1 r2) = released (new_calls r r1)
  /\ enqueued (new_calls r1 r2) = [Structured RefreshRequestEvent]
  /\ scroll_offset r2 = scroll_offset r.

(** Modelled from the spec: what [BaseRepl.process_event] and
    [BaseRepl.paint], of [bpython/curtsiesfrontend/repl.py], which is not
    among the embedded files, do to [scroll_offset]. The
    specification has the session state, [scroll_offset] in it, "owned
    exclusively by SessionDriver", and has the dispatch return or raise
    and nothing else: the two methods leave [scroll_offset] as they find
    it. *)
Definition scroll_offset_owned_by_driver : Prop :=
  (forall e so ns w, (base_process_event E e so ns w).1.1.2 = so)
  /\ (forall args so w, (paint E args so w).1.2 = so).

(** Between two states the record of calls grows, and [scroll_offset]
    grows by the amounts that the renderer reported in the new calls. *)
Definition accumulates (r r' : Repl X Value) : Prop :=
  exists new,
    trace r' = trace r ++ new
    /\ scroll_offset r' = (scroll_offset r + scrolled_total new)%Z.

(** The namespace after the three injections of the warm-up, in front of
    the two [del] statements. *)
Definition after_injection (r : Repl X Value) : Repl X Value :=
  do_runsource E bind_help_source
    (do_runsource E import_helper_source
       (set_locals (<["_repl"%string := self_value E]> (locals r)) r)).

(** Neither temporary name is bound at a dispatch. *)
Definition temporaries_unbound (bound : gset string) : Prop :=
  ("_repl"%string ∉ bound) /\ ("_Helper"%string ∉ bound).

(** The dispatch never binds a temporary name that is not bound. *)
Definition dispatch_keeps_unbound : Prop :=
  forall e so ns w name,
    name = "_repl"%string \/ name = "_Helper"%string ->
    ns !! name = None ->
    (base_process_event E e so ns w).1.2 !! name = None.

(** Between two states the record of calls grows, and no new dispatch sees
    a temporary name. *)
Definition dispatches_without_temporaries (r r' : Repl X Value) : Prop :=
  exists new,
    trace r' = trace r ++ new
    /\ Forall temporaries_unbound (dispatch_namespaces new).

Definition no_temporaries (r : Repl X Value) : Prop :=
  locals r !! "_repl"%string = None /\ locals r !! "_Helper"%string = None.

End Claims.

(** Collaborators for examples. The shared state is the queue of the input
    generator and the terminal input still to come. The interpreter values
    are numbers. The two methods of [BaseRepl] leave [scroll_offset] as it
    is. A start-up file may assign a name; the key [<Ctrl-d>]
    leaves the shell with [SystemExit], and a [SigIntEvent] ends the code
    with [SystemExitFromCodeGreenlet]. The renderer reports one scrolled
    line per frame. *)
Definition example_dispatch (startup_assigns : option string)
    (e : Raw) (so : Z) (ns : gmap string Z) (w : list Raw * list Raw)
  : result unit * Z * gmap string Z * (list Raw * list Raw) :=
  match e with
  | Structured RunStartupFileEvent =>
      match startup_assigns with
      | Some name => (Ok tt, so, <[name := 7%Z]> ns, w)
      | None => (Ok tt, so, ns, w)
      end
  | Keystroke k =>
      if String.eqb k "<Ctrl-d>" then (Raise (SystemExit []), so, ns, w)
      else (Ok tt, so, ns, w)
  | Structured SigIntEvent =>
      (Raise (SystemExitFromCodeGreenlet [1%Z]), so, ns, w)
  | _ => (Ok tt, so, ns, w)
  end.

Definition example_runsource (source : string) (ns : gmap string Z)
    (w : list Raw * list Raw) : gmap string Z * (list Raw * list Raw) :=
  if String.eqb source import_helper_source then (<["_Helper"%string := 1%Z]> ns, w)
  else if String.eqb source bind_help_source then (<["help"%string := 2%Z]> ns, w)
  else (ns, w).

Definition example_input_send (timeout : timeout_t) (w : list Raw * list Raw)
  : Raw * (list Raw * list Raw) :=
  match w with
  | (u :: queued, script) => (u, (queued, script))
  | ([], u :: script) => (u, ([], script))
  | ([], []) => (Timeout, ([], []))
  end.

Definition example_externals (startup_assigns : option string)
  : Externals (list Raw * list Raw) Z unit :=
  mkExternals _ _ _
    (example_dispatch startup_assigns)
    (fun _ so w => (tt, so, w))
    (fun _ w => (1%Z, w))
    example_runsource
    example_input_send
    (fun _ w => w)
    (fun _ w => w)
    (fun _ payload w => (w.1 ++ [payload], w.2))
    0%Z.

Definition example_repl (script : list Raw) : Repl (list Raw * list Raw) Z :=
  mkRepl 0%Z ∅ ([], script) [].

End DriverClaims.

(** ** filewatch.py *)

Module Filewatch.

(** [path[:-n]] for [n = len(suff)]; with [n = 0] the slice is empty. *)
Definition slice_off_end (n : nat) (path : string) : string :=
  match n with
  | O => EmptyString
  | S _ =>
      string_of_list_ascii
        (take (String.length path - n) (list_ascii_of_string path))
  end.

Definition str_endswith (s suffix : string) : bool :=
  endswith (list_ascii_of_string s) (list_ascii_of_string suffix).

(** A [defaultdict(set)] from directory names to sets of module paths, in
    insertion order. *)
Abbreviation DirMap := (list (string * gset string)).

Definition dir_mem (dirname : string) (dirs : DirMap) : bool :=
  existsb (fun kv => String.eqb (fst kv) dirname) dirs.

(** [dirs[dirname].add(path)] *)
Fixpoint dir_add (dirname path : string) (dirs : DirMap) : DirMap :=
  match dirs with
  | [] => [(dirname, {[ path ]})]
  | (k, v) :: dirs' =>
      if String.eqb k dirname then (k, {[ path ]} ∪ v) :: dirs'
      else (k, v) :: dir_add dirname path dirs'
  end.

(** The fields of a [ModuleChangedEventHandler]. The observer is kept as
    the list of directories it was asked to watch and whether it runs. *)
Record Watcher : Type := mkWatcher {
  dirs : DirMap;
  modules_to_add_later : list string;
  old_dirs : DirMap;
  started : bool;
  activated : bool;
  observer_running : bool;
  observer_watches : list string
}.

(** What the name [ModuleChangedEventHandler] gives when it is called: an
    instance of the class, or [None]. *)
Inductive Handler : Type :=
  | NoneValue
  | Instance (w : Watcher).

(** The methods that callers invoke on the handler. *)
Inductive Method : Type :=
  | call_track_module (path : string)
  | call_activate
  | call_deactivate
  | call_reset.

Definition method_name (m : Method) : string :=
  match m with
  | call_track_module _ => "track_module"
  | call_activate => "activate"
  | call_deactivate => "deactivate"
  | call_reset => "reset"
  end.

Section Watchdog.

(** [importcompletion.SUFFIXES], [os.path.abspath] and [os.path.dirname]. *)
Variable SUFFIXES : list string.
Variable abspath : string -> string.
Variable dirname : string -> string.

(** Whether [from watchdog.observers import Observer] succeeds. *)
Variable watchdog_importable : bool.

(** The type of the [on_change] callbacks. *)
Variable Callback : Type.

Definition strip_suffix (path : string) : string :=
  match List.find (str_endswith path) SUFFIXES with
  | Some suff => slice_off_end (String.length suff) path
  | None => path
  end.

Definition _add_module (path : string) (w : Watcher) : Watcher :=
  let path := strip_suffix (abspath path) in
  let d := dirname path in
  let watches :=
    if dir_mem d (dirs w) then observer_watches w else observer_watches w ++ [d] in
  mkWatcher (dir_add d path (dirs w)) (modules_to_add_later w) (old_dirs w)
            (started w) (activated w) (observer_running w) watches.

Definition _add_module_later (path : string) (w : Watcher) : Watcher :=
  mkWatcher (dirs w) (modules_to_add_later w ++ [path]) (old_dirs w)
            (started w) (activated w) (observer_running w) (observer_watches w).

Definition track_module (path : string) (w : Watcher) : Watcher :=
  if activated w then _add_module path w else _add_module_later path w.

Definition reset (w : Watcher) : Watcher :=
  mkWatcher [] [] [] (started w) (activated w) (observer_running w) [].

Definition activate (w : Watcher) : result Watcher :=
  if activated w then Raise ValueError
  else
    let w1 :=
      if started w then w
      else mkWatcher (dirs w) (modules_to_add_later w) (old_dirs w)
                     true (activated w) true (observer_watches w) in
    let w2 :=
      mkWatcher (dirs w1) (modules_to_add_later w1) (old_dirs w1) (started w1)
                (activated w1) (observer_running w1)
                (observer_watches w1 ++ map fst (dirs w1)) in
    let w3 := foldl (fun acc module => _add_module module acc) w2 (modules_to_add_later w2) in
    Ok (mkWatcher (dirs w3) [] (old_dirs w3) (started w3) true
                  (observer_running w3) (observer_watches w3)).

Definition deactivate (w : Watcher) : result Watcher :=
  if activated w then
    Ok (mkWatcher (dirs w) (modules_to_add_later w) (old_dirs w) (started w)
                  false (observer_running w) [])
  else Raise ValueError.

(** [ModuleChangedEventHandler.__init__(self, paths, on_change)] *)
Definition init (paths : list string) : Watcher :=
  foldl (fun acc path => _add_module path acc)
        (mkWatcher [] [] [] false false false []) paths.

(** Lines 7 to 29: the name is bound to the class when [watchdog] can be
    imported, and otherwise to a function that takes any arguments and
    returns [None]. *)
Definition ModuleChangedEventHandler (paths : list string) (on_change : Callback)
  : result Handler :=
  if watchdog_importable then Ok (Instance (init paths))
  else Ok NoneValue.

(** A method call [handler.m(...)] on what the constructor returned; [None]
    has none of these attributes. *)
Definition call (h : Handler) (m : Method) : result Handler :=
  match h with
  | NoneValue => Raise (AttributeError (method_name m))
  | Instance w =>
      match m with
      | call_track_module path => Ok (Instance (track_module path w))
      | call_reset => Ok (Instance (reset w))
      | call_activate =>
          match activate w with
          | Ok w' => Ok (Instance w')
          | Raise err => Raise err
          end
      | call_deactivate =>
          match deactivate w with
          | Ok w' => Ok (Instance w')
          | Raise err => Raise err
          end
      end
  end.

(** [bool(handler)]: [None] is false, and an instance of the class, which
    defines neither [__bool__] nor [__len__], is true. *)
Definition truthy (h : Handler) : bool :=
  match h with
  | NoneValue => false
  | Instance _ => true
  end.

(** A method call under [if handler:], the way a caller that tests the
    handle writes it. *)
Definition guarded_call (h : Handler) (m : Method) : result Handler :=
  if truthy h then call h m else Ok h.

(** The claim that tracking and activation calls on the handler do nothing
    and do not fail. *)
Definition calls_are_noops (h : Handler) : Prop :=
  forall m, m = call_activate \/ (exists path, m = call_track_module path) ->
            call h m = Ok h.

(** Graceful degradation as the specification has it: the construction
    raises nothing, and those calls on its result do nothing and do not
    fail. *)
Definition degrades_to_noop (paths : list string) (on_change : Callback) : Prop :=
  exists h, ModuleChangedEventHandler paths on_change = Ok h /\ calls_are_noops h.

End Watchdog.

End Filewatch.

(** ** The coalescer: what it reads and what it yields *)

Module CoalescerRuns.

Import Coalescer.

(** The key presses that a value carries: itself when it is a key press,
    the key presses of a paste event, none otherwise. *)
Definition raw_keys (u : Raw) : list Key :=
  match u with
  | Keystroke k => [k]
  | Structured (PasteEvent ks) => ks
  | _ => []
  end.

Definition keys_of (us : list Raw) : list Key := flat_map raw_keys us.

(** The key presses that the generator holds and still has to yield; at the
    first [yield] the queue does not exist yet. *)
Definition pending (g : Gen) : list Key :=
  match pc g with
  | AtPrime => []
  | _ => queue g
  end.

(** The states in which [_combined_events] can be suspended: the queue is
    empty at every [yield] other than the one of the draining loop. *)
Definition reachable (g : Gen) : Prop := pc g = AtYield -> queue g = [].

Definition is_paste (u : Raw) : bool :=
  match u with
  | Structured (PasteEvent _) => true
  | _ => false
  end.

(** A script of an input source that makes no paste events of its own, as
    [curtsies.input.Input(paste_threshold=None)] in [__init__]. *)
Definition no_paste (script : list Raw) : Prop :=
  Forall (fun u => is_paste u = false) script.

(** A paste event of at least [paste_threshold] key presses, and of at
    least one. *)
Definition paste_reaches (paste_threshold : Z) (u : Raw) : Prop :=
  match u with
  | Structured (PasteEvent ks) =>
      (paste_threshold <= Z.of_nat (length ks))%Z /\ ks <> []
  | _ => True
  end.

Section Logged.

Variable P : Type.
Variable provider_send : timeout_t -> P -> Raw * P.

(** The provider with a record of the timeouts it was sent. *)
Definition logged_send (timeout : timeout_t) (s : P * list timeout_t)
  : Raw * (P * list timeout_t) :=
  let '(u, p') := provider_send timeout (fst s) in
  (u, (p', snd s ++ [timeout])).

End Logged.

End CoalescerRuns.

(** ** The driver: how a run of the main loop ends *)

Module DriverRuns.

Import Driver DriverClaims.

Section Ends.

Context {X Value : Type}.

(** The record of calls between two states ends with the dispatch that
    raised [err] and the one frame painted after it. *)
Definition ends_with_exit_frame (r r' : Repl X Value) (err : exn) : Prop :=
  exists pre e bound scrolled,
    trace r' = trace r ++ pre
                 ++ [ADispatch e bound;
                     APaint (ExitArgs true (isinstance_SystemExitFromCodeGreenlet err));
                     ARender scrolled].

End Ends.

(** Collaborators for examples in which the import of [_Helper] fails: the
    interpreter reports the error and binds nothing. *)
Definition example_externals_without_helper : Externals (list Raw * list Raw) Z unit :=
  let E := example_externals None in
  mkExternals _ _ _
    (base_process_event E) (paint E) (render_to_terminal E)
    (fun _ ns w => (ns, w))
    (input_send E) (context_exit E) (context_enter E) (enqueue E) (self_value E).

End DriverRuns.

(** ** filewatch.py: events and sequences of calls *)

Module FilewatchRuns.

Import Filewatch.

(** [dirs[dirname]] as a read: the set under the key, empty when the key is
    missing. *)
Definition dir_get (dirname : string) (dirs : DirMap) : gset string :=
  match List.find (fun kv => String.eqb (fst kv) dirname) dirs with
  | Some kv => snd kv
  | None => ∅
  end.

(** What the read [self.dirs[dirpath]] does to a [defaultdict(set)]: a
    missing key is inserted with an empty set. *)
Definition dir_touch (dirname : string) (dirs : DirMap) : DirMap :=
  if dir_mem dirname dirs then dirs else dirs ++ [(dirname, ∅)].

(** The watcher with another list of modules to add later. *)
Definition with_later (later : list string) (w : Watcher) : Watcher :=
  mkWatcher (dirs w) later (old_dirs w) (started w) (activated w)
            (observer_running w) (observer_watches w).

(** The two ends of a successful [activate]: the observer is started if
    it was not and is asked to watch every tracked directory; at the end
    the list of modules to add later is emptied and [activated] is set. *)
Definition start_and_schedule (w : Watcher) : Watcher :=
  mkWatcher (dirs w) (modules_to_add_later w) (old_dirs w) true (activated w)
            (if started w then observer_running w else true)
            (observer_watches w ++ map fst (dirs w)).

Definition mark_activated (w : Watcher) : Watcher :=
  mkWatcher (dirs w) [] (old_dirs w) (started w) true
            (observer_running w) (observer_watches w).

Section Events.

Variable SUFFIXES : list string.
Variable abspath : string -> string.
Variable dirname : string -> string.

(** [on_any_event(self, event)], with [event.src_path] as argument. The
    second component is the argument [files_modified] of the call of
    [on_change], when there is one. *)
Definition on_any_event (src_path : string) (w : Watcher)
  : Watcher * option (list string) :=
  let dirpath := dirname src_path in
  let paths :=
    map (fun path => String.append path ".py") (elements (dir_get dirpath (dirs w))) in
  let w' := mkWatcher (dir_touch dirpath (dirs w)) (modules_to_add_later w)
                      (old_dirs w) (started w) (activated w)
                      (observer_running w) (observer_watches w) in
  if existsb (String.eqb src_path) paths then (w', Some [src_path]) else (w', None).

(** One method call on a handler object; a call that raises leaves the
    object as it was, since both [raise] statements come first. *)
Definition apply_method (m : Method) (w : Watcher) : Watcher :=
  match call SUFFIXES abspath dirname (Instance w) m with
  | Ok (Instance w') => w'
  | _ => w
  end.

(** The handler after construction from [paths] and a sequence of calls. *)
Definition run (paths : list string) (ms : list Method) : Watcher :=
  foldl (fun w m => apply_method m w) (init SUFFIXES abspath dirname paths) ms.

End Events.

(** Every directory that has tracked modules is watched by the observer. *)
Definition tracked_dirs_watched (w : Watcher) : Prop :=
  forall d, dir_mem d (dirs w) = true -> In d (observer_watches w).

(** What holds of a handler that was built by [__init__] and then only
    driven through its methods: while it is activated the tracked
    directories are watched and no module waits to be added, and no
    directory is a key twice. *)
Definition consistent (w : Watcher) : Prop :=
  (activated w = true -> tracked_dirs_watched w)
  /\ (activated w = true -> modules_to_add_later w = [])
  /\ NoDup (map fst (dirs w)).

(** For examples: the directory part of a path with [/] as separator, and
    suffixes as [importlib] lists them. *)
Definition example_dirname (path : string) : string :=
  string_of_list_ascii (fst (fst (rpartition "/"%char (list_ascii_of_string path)))).

Definition example_suffixes : list string :=
  [".cpython-311-x86_64-linux-gnu.so"; ".abi3.so"; ".so"; ".py"; ".pyc"]%string.

End FilewatchRuns.

(** ** curtsies.py: [main] *)

Module MainProgram.

Import Driver.

(** The fields of [options] that [main] reads. *)
Record Options : Type := mkOptions {
  o_log : option Z;
  o_paste : bool;
  o_interactive : bool;
  o_quiet : bool
}.

Inductive LogLevel : Type := ERROR | INFO | DEBUG.

(** [l[i]] on a Python list: a negative index counts from the end, and an
    index out of range raises [IndexError]. *)
Definition list_subscript {A : Type} (l : list A) (i : Z) : result A :=
  let n := Z.of_nat (length l) in
  let j := if (i <? 0)%Z then (i + n)%Z else i in
  if ((j <? 0) || (n <=? j))%Z then Raise IndexError
  else match l !! Z.to_nat j with
       | Some x => Ok x
       | None => Raise IndexError
       end.

Definition logging_levels : list LogLevel := [ERROR; INFO; DEBUG].

(** Lines 150 to 153: [options.log] with [None] replaced by 0, and the
    level chosen from it. *)
Definition effective_log (log : option Z) : Z := default 0%Z log.

Definition chosen_level (log : option Z) : result LogLevel :=
  list_subscript logging_levels
    (Z.min (Z.of_nat (length logging_levels) - 1) (effective_log log)).

(** [isinstance(err, SystemExit)], the test of [except SystemExit] at line
    179: [SystemExitFromCodeGreenlet] is a subclass of [SystemExit]. *)
Definition isinstance_SystemExit (err : exn) : bool :=
  match err with
  | SystemExit _ | SystemExitFromCodeGreenlet _ => true
  | _ => false
  end.

(** How a call of [main] stands: it returned a value, an exception left
    it, or the main loop is still running when the fuel is used up. *)
Inductive MainResult (ExitValue : Type) : Type :=
  | Exit (value : ExitValue)
  | Propagated (err : exn)
  | StillRunning.

Arguments Exit {ExitValue} value.
Arguments Propagated {ExitValue} err.
Arguments StillRunning {ExitValue}.

(** The collaborators of [main] beside those of the driver. *)
Record MainExternals (X Value Frame ExitValue : Type) : Type := mkMainExternals {
  driver : Externals X Value Frame;
  (** [translations.init()] *)
  translations_init : X -> X;
  (** the two [setLevel(level)] calls *)
  set_levels : LogLevel -> X -> X;
  (** lines 157 to 161: the file handler on both loggers *)
  log_to_file : X -> X;
  (** lines 171 to 173: the text of the file, character by character *)
  read_source : string -> X -> list Key * X;
  (** lines 177 and 178: a new interpreter on the namespace runs the code *)
  exec_code :
    list string -> gmap string Value -> X -> result unit * gmap string Value * X;
  (** [sys.path.insert(0, '')] *)
  path_insert : X -> X;
  (** [print(bpargs.version_banner())] and [print(banner)] *)
  print_version_banner : X -> X;
  print_banner : string -> X -> X;
  (** [BaseRepl.__init__], with or without an interpreter of the caller *)
  base_init : bool -> X -> X;
  (** [with repl:] *)
  repl_enter : X -> X;
  repl_exit : X -> X;
  (** [repl.height, repl.width = win.t.height, win.t.width] *)
  set_size : X -> X;
  (** [extract_exit_value] of [bpython.repl]; [None] is the value of a
      [mainloop] that returned *)
  extract_exit_value : option (list Z) -> ExitValue
}.

Arguments driver {X Value Frame ExitValue}.
Arguments translations_init {X Value Frame ExitValue}.
Arguments set_levels {X Value Frame ExitValue}.
Arguments log_to_file {X Value Frame ExitValue}.
Arguments read_source {X Value Frame ExitValue}.
Arguments exec_code {X Value Frame ExitValue}.
Arguments path_insert {X Value Frame ExitValue}.
Arguments print_version_banner {X Value Frame ExitValue}.
Arguments print_banner {X Value Frame ExitValue}.
Arguments base_init {X Value Frame ExitValue}.
Arguments repl_enter {X Value Frame ExitValue}.
Arguments repl_exit {X Value Frame ExitValue}.
Arguments set_size {X Value Frame ExitValue}.
Arguments extract_exit_value {X Value Frame ExitValue}.

(** [e.args] of an exit exception. *)
Definition exit_args (err : exn) : list Z :=
  match err with
  | SystemExit args | SystemExitFromCodeGreenlet args => args
  | _ => []
  end.

Section Main.

Context {X Value Frame ExitValue : Type}.
Variable M : MainExternals X Value Frame ExitValue.

Local Abbreviation E := (driver M).
Local Abbreviation Repl := (Repl X Value).

Definition on_world (f : X -> X) (r : Repl) : Repl := set_world (f (world r)) r.

(** [FullCurtsiesRepl.__init__]: the input generator and the window are
    made and the triggers registered, the input generator is entered and
    left once ([with self.input_generator: pass]), and [BaseRepl.__init__]
    runs. The argument [paste] is not used. *)
Definition construct (interp_given : bool) (paste : option Event) (r : Repl) : Repl :=
  let r := do_enter E InputGenerator r in
  let r := do_exit E InputGenerator r in
  on_world (base_init M interp_given) r.

(** Lines 163 to 185: what [main] does with [exec_args]. It returns early
    with an exit value, or goes on with an interpreter or not and with a
    paste event or not. The clause [except SystemExit] catches the
    exceptions of [isinstance_SystemExit] and takes their arguments as exit
    value; any other exception leaves [main]. *)
Inductive Prepared : Type :=
  | EarlyReturn (value : ExitValue)
  | EarlyRaise (err : exn)
  | GoOn (interp_given : bool) (paste : option Event).

Definition prepare (options : Options) (exec_args : list string) (r : Repl)
  : Prepared * Repl :=
  match exec_args with
  | [] => (GoOn false None, on_world (path_insert M) r)
  | source :: _ =>
      if o_paste options then
        let '(sourcecode, w) := read_source M source (world r) in
        (GoOn false (Some (PasteEvent sourcecode)), set_world w r)
      else
        let '(out, ns, w) := exec_code M exec_args (locals r) (world r) in
        let r := set_world w (set_locals ns r) in
        match out with
        | Ok _ =>
            if o_interactive options then (GoOn true None, r)
            else (EarlyReturn (extract_exit_value M (Some [])), r)
        | Raise err =>
            if isinstance_SystemExit err then
              if o_interactive options then (GoOn true None, r)
              else (EarlyReturn (extract_exit_value M (Some (exit_args err))), r)
            else (EarlyRaise err, r)
        end
  end.

(** Lines 192 to 201: the construction of the REPL, the three [with]
    statements around [repl.mainloop()], which is called without
    arguments, and the [except] clause. *)
Definition run_repl (interp_given : bool) (paste : option Event)
    (fuel steps rounds : nat) (r : Repl) : MainResult ExitValue * Repl :=
  let r := construct interp_given paste r in
  let r := do_enter E InputGenerator r in
  let r := do_enter E Window r in
  let r := on_world (repl_enter M) r in
  let r := on_world (set_size M) r in
  match mainloop E true None fuel steps rounds r with
  | (Running, r) => (StillRunning, r)
  | (out, r) =>
      let r := on_world (repl_exit M) r in
      let r := do_exit E Window r in
      let r := do_exit E InputGenerator r in
      match out with
      | Raised err =>
          if is_termination err
          then (Exit (extract_exit_value M (Some (exit_args err))), r)
          else (Propagated err, r)
      | _ => (Exit (extract_exit_value M None), r)
      end
  end.

(** [main], from the parsed [options] and [exec_args]. *)
Definition main (options : Options) (exec_args : list string)
    (banner : option string) (fuel steps rounds : nat) (r : Repl)
  : MainResult ExitValue * Repl :=
  let r := on_world (translations_init M) r in
  match chosen_level (o_log options) with
  | Raise err => (Propagated err, r)
  | Ok level =>
      let r := on_world (set_levels M level) r in
      let r := if (effective_log (o_log options) =? 0)%Z then r
               else on_world (log_to_file M) r in
      match prepare options exec_args r with
      | (EarlyReturn value, r) => (Exit value, r)
      | (EarlyRaise err, r) => (Propagated err, r)
      | (GoOn interp_given paste, r) =>
          let r := if o_quiet options then r
                   else on_world (print_version_banner M) r in
          let r := match banner with
                   | Some text => on_world (print_banner M text) r
                   | None => r
                   end in
          run_repl interp_given paste fuel steps rounds r
      end
  end.

End Main.

(** The same collaborators, with the text that [read_source] returns
    replaced by [text]; the state it leaves is kept. *)
Definition with_text {X Value Frame ExitValue : Type}
    (text : string -> X -> list Key)
    (M : MainExternals X Value Frame ExitValue)
  : MainExternals X Value Frame ExitValue :=
  mkMainExternals X Value Frame ExitValue
    (driver M) (translations_init M) (set_levels M) (log_to_file M)
    (fun source w => (text source w, (read_source M source w).2))
    (exec_code M) (path_insert M) (print_version_banner M) (print_banner M)
    (base_init M) (repl_enter M) (repl_exit M) (set_size M)
    (extract_exit_value M).

(** Collaborators to run [main] on: the driver of the examples, code that
    raises [SystemExit(3)] after binding [x], and the exit value of
    [extract_exit_value] of [bpython.repl] for tuples of at most one
    argument. *)
Definition example_main_externals
  : MainExternals (list Raw * list Raw) Z unit (option Z) :=
  mkMainExternals _ _ _ _
    (DriverClaims.example_externals None)
    (fun w => w) (fun _ w => w) (fun w => w)
    (fun _ w => (["a"%string; "b"%string], w))
    (fun _ ns w => (Raise (SystemExit [3%Z]), <["x"%string := 1%Z]> ns, w))
    (fun w => w) (fun w => w) (fun _ w => w) (fun _ w => w)
    (fun w => w) (fun w => w) (fun w => w)
    (fun args => match args with Some (v :: _) => Some v | _ => None end).

End MainProgram.

(** ** Facts about the string operations *)

Section PyStrFacts.

Lemma ascii_eqb_true a b : ascii_eqb a b = true <-> a = b.
Proof. apply Ascii.eqb_eq. Qed.

Lemma ascii_eqb_false a b : ascii_eqb a b = false <-> a <> b.
Proof. apply Ascii.eqb_neq. Qed.

Lemma ascii_eqb_refl a : ascii_eqb a a = true.
Proof. apply Ascii.eqb_refl. Qed.

Lemma split_nonempty c s : split c s <> [].
Proof.
  destruct s as [|a s]; simpl; [discriminate|].
  destruct (ascii_eqb a c); [discriminate|].
  destruct (split c s); discriminate.
Qed.

Lemma split_sep_free c s : Forall (sep_free c) (split c s).
Proof.
  induction s as [|a s IH]; simpl.
  - repeat constructor.
  - destruct (ascii_eqb a c) eqn:E.
    + constructor; [constructor | exact IH].
    + apply ascii_eqb_false in E.
      destruct (split c s) as [|l ls].
      * repeat constructor. exact E.
      * inversion IH; subst. constructor; [constructor; assumption | assumption].
Qed.

Lemma join_split c s : join c (split c s) = s.
Proof.
  induction s as [|a s IH]; simpl; [reflexivity|].
  destruct (ascii_eqb a c) eqn:E.
  - apply ascii_eqb_true in E. subst a.
    pose proof (split_nonempty c s) as Hne.
    destruct (split c s) as [|l ls]; [contradiction|].
    simpl in *. rewrite IH. reflexivity.
  - pose proof (split_nonempty c s) as Hne.
    destruct (split c s) as [|l ls]; [contradiction|].
    simpl in *. destruct ls; simpl in *; rewrite <- IH; reflexivity.
Qed.

Lemma split_sep_free_line c l : sep_free c l -> split c l = [l].
Proof.
  induction 1 as [|a l Ha Hl IH]; simpl; [reflexivity|].
  apply ascii_eqb_false in Ha. rewrite Ha, IH. reflexivity.
Qed.

Lemma split_app_sep c l s :
  sep_free c l -> split c (l ++ c :: s) = l :: split c s.
Proof.
  induction 1 as [|a l Ha Hl IH]; simpl.
  - rewrite ascii_eqb_refl. reflexivity.
  - apply ascii_eqb_false in Ha. rewrite Ha, IH. reflexivity.
Qed.

Lemma split_join c ls :
  ls <> [] -> Forall (sep_free c) ls -> split c (join c ls) = ls.
Proof.
  intros Hne Hall. induction Hall as [|l ls Hl Hls IH]; [contradiction|].
  destruct ls as [|l' ls'].
  - simpl. apply split_sep_free_line. exact Hl.
  - change (join c (l :: l' :: ls')) with (l ++ c :: join c (l' :: ls')).
    rewrite split_app_sep by exact Hl. rewrite IH by discriminate. reflexivity.
Qed.

Lemma join_snoc c ls l :
  ls <> [] -> join c (ls ++ [l]) = join c ls ++ c :: l.
Proof.
  induction ls as [|x ls IH]; [contradiction|]. intros _.
  destruct ls as [|y ls'].
  - reflexivity.
  - change (join c ((x :: y :: ls') ++ [l]))
      with (x ++ c :: join c ((y :: ls') ++ [l])).
    rewrite IH by discriminate.
    change (join c (x :: y :: ls')) with (x ++ c :: join c (y :: ls')).
    rewrite <- app_assoc. reflexivity.
Qed.

Lemma takewhile_sep_free (P : ascii -> bool) c l :
  sep_free c l -> sep_free c (takewhile P l).
Proof.
  induction 1 as [|a l Ha Hl IH]; simpl; [constructor|].
  destruct (P a); constructor; assumption.
Qed.

Lemma takewhile_nil_inv (P : ascii -> bool) l :
  takewhile P l = [] -> l = [] \/ exists a l', l = a :: l' /\ P a = false.
Proof.
  destruct l as [|a l']; simpl; [left; reflexivity|].
  destruct (P a) eqn:E; [discriminate|]. right. eauto.
Qed.

Lemma takewhile_dropwhile (P : ascii -> bool) l :
  takewhile P l ++ dropwhile P l = l.
Proof.
  induction l as [|a l IH]; simpl; [reflexivity|].
  destruct (P a); simpl; [rewrite IH|]; reflexivity.
Qed.

End PyStrFacts.

(** ** Indentation repair: the loop over lines *)

Section RepairLines.

Import Preprocess.

Local Abbreviation indent := indent_empty_lines_re_match.

Lemma repair_from_nil p : repair_from p [] = [].
Proof. reflexivity. Qed.

Lemma repair_from_cons p l rest :
  repair_from p (l :: rest) = repair_line (p, l, hd [] rest) :: repair_from l rest.
Proof. destruct rest; reflexivity. Qed.

Lemma repair_from_length p ls : length (repair_from p ls) = length ls.
Proof.
  revert p. induction ls as [|l rest IH]; intros p; [reflexivity|].
  rewrite repair_from_cons. simpl. rewrite IH. reflexivity.
Qed.

Lemma repair_line_nonempty p l n : l <> [] -> repair_line (p, l, n) = l.
Proof. destruct l; [contradiction|reflexivity]. Qed.

Lemma repair_line_empty p n :
  repair_line (p, [], n) = min_by_len (indent p) (indent n).
Proof. simpl. apply app_nil_r. Qed.

Lemma min_by_len_nil_l n : min_by_len [] n = [].
Proof. unfold min_by_len. simpl. destruct (length n); reflexivity. Qed.

Lemma min_by_len_nil_r p : min_by_len p [] = [].
Proof. unfold min_by_len. destruct p; reflexivity. Qed.

Lemma min_by_len_nil_inv p n : min_by_len p n = [] -> p = [] \/ n = [].
Proof.
  unfold min_by_len. destruct (length n <? length p); intros ->; auto.
Qed.

Lemma indent_nil : indent [] = [].
Proof. reflexivity. Qed.

(** The first repaired line after an empty line has no indentation when the
    line it comes from has none. *)
Lemma indent_hd_repair_from rest :
  indent (hd [] rest) = [] -> indent (hd [] (repair_from [] rest)) = [].
Proof.
  destruct rest as [|n rest']; [reflexivity|].
  rewrite repair_from_cons. cbn [hd]. intros Hn.
  destruct n as [|a n'].
  - rewrite repair_line_empty, indent_nil, min_by_len_nil_l. reflexivity.
  - rewrite repair_line_nonempty by discriminate. exact Hn.
Qed.

(** Running the loop on its own output changes nothing.  The previous line
    seen by the second run may differ from the one seen by the first run
    only in front of a line that is not empty. *)
Lemma repair_from_idem ls : forall p p',
  (hd_error ls = Some [] -> p' = p) ->
  repair_from p' (repair_from p ls) = repair_from p ls.
Proof.
  induction ls as [|l rest IH]; intros p p' Hp; [reflexivity|].
  rewrite repair_from_cons.
  destruct l as [|a l'].
  - (* an empty line *)
    rewrite (Hp eq_refl). clear Hp p'.
    rewrite repair_line_empty.
    set (x := min_by_len (indent p) (indent (hd [] rest))).
    rewrite repair_from_cons. f_equal.
    + destruct x as [|b x'] eqn:Ex; [|reflexivity].
      rewrite repair_line_empty.
      destruct (min_by_len_nil_inv _ _ Ex) as [Hp0 | Hn0].
      * rewrite Hp0. apply min_by_len_nil_l.
      * rewrite (indent_hd_repair_from rest Hn0). apply min_by_len_nil_r.
    + apply IH. intros Hhd. destruct rest as [|n rest']; [discriminate|].
      simpl in Hhd. injection Hhd as ->. unfold x. cbn [hd].
      rewrite indent_nil. apply min_by_len_nil_r.
  - (* a line with text *)
    rewrite repair_line_nonempty by discriminate.
    rewrite repair_from_cons. rewrite repair_line_nonempty by discriminate.
    f_equal. apply IH. intros _. reflexivity.
Qed.

Lemma repair_lines_idem ls : repair_lines (repair_lines ls) = repair_lines ls.
Proof. unfold repair_lines. apply repair_from_idem. reflexivity. Qed.

End RepairLines.

(** ** Indentation repair: the text *)

Section IndentEmptyLines.

Import Preprocess.

Local Abbreviation indent := indent_empty_lines_re_match.

Lemma min_by_len_cases p n : min_by_len p n = p \/ min_by_len p n = n.
Proof. unfold min_by_len. destruct (length n <? length p); auto. Qed.

Lemma repair_line_sep_free c p l n :
  sep_free c p -> sep_free c l -> sep_free c n -> sep_free c (repair_line (p, l, n)).
Proof.
  intros Hp Hl Hn. destruct l as [|a l'].
  - rewrite repair_line_empty.
    destruct (min_by_len_cases (indent p) (indent n)) as [-> | ->];
      apply takewhile_sep_free; assumption.
  - rewrite repair_line_nonempty by discriminate. exact Hl.
Qed.

Lemma repair_from_sep_free c ls : forall p,
  sep_free c p -> Forall (sep_free c) ls -> Forall (sep_free c) (repair_from p ls).
Proof.
  induction ls as [|l rest IH]; intros p Hp Hall; [constructor|].
  rewrite repair_from_cons. inversion Hall as [|? ? Hl Hrest]; subst.
  constructor.
  - apply repair_line_sep_free; try assumption.
    destruct rest as [|n rest']; [constructor|]. inversion Hrest; assumption.
  - apply IH; assumption.
Qed.

Lemma repair_from_last ls : forall p l,
  last ls = Some l -> l <> [] -> last (repair_from p ls) = Some l.
Proof.
  induction ls as [|x rest IH]; intros p l Hlast Hl; [discriminate|].
  rewrite repair_from_cons. destruct rest as [|n rest'].
  - simpl in Hlast. injection Hlast as ->.
    rewrite repair_line_nonempty by exact Hl. reflexivity.
  - rewrite last_cons_cons in Hlast.
    rewrite (repair_from_cons x n rest'), last_cons_cons.
    rewrite <- (repair_from_cons x n rest').
    apply IH; assumption.
Qed.

Lemma pop_trailing_empty_snoc L : pop_trailing_empty (L ++ [[]]) = (true, L).
Proof.
  unfold pop_trailing_empty. rewrite last_snoc, removelast_last. reflexivity.
Qed.

Lemma pop_trailing_empty_keep ls l :
  last ls = Some l -> l <> [] -> pop_trailing_empty ls = (false, ls).
Proof.
  intros Hlast Hl. unfold pop_trailing_empty. rewrite Hlast.
  destruct l; [contradiction|reflexivity].
Qed.

(** The two ways the text can end. *)
Lemma pop_trailing_empty_spec ls :
  ls <> [] ->
  (exists L, ls = L ++ [[]] /\ pop_trailing_empty ls = (true, L))
  \/ (exists l, last ls = Some l /\ l <> [] /\ pop_trailing_empty ls = (false, ls)).
Proof.
  intros Hne. destruct (last ls) as [l|] eqn:Hlast.
  - destruct l as [|a l'].
    + left. apply last_Some in Hlast as [L ->]. exists L.
      split; [reflexivity | apply pop_trailing_empty_snoc].
    + right. exists (a :: l'). split; [reflexivity|].
      split; [discriminate|]. eapply pop_trailing_empty_keep; [exact Hlast | discriminate].
  - apply last_None in Hlast. contradiction.
Qed.

(** The shape of the result, from the lines of the input. *)
Lemma indent_empty_lines_unfold {C} (s : str) (compiler : C) :
  indent_empty_lines s compiler =
    join nl (repair_lines (snd (pop_trailing_empty (split nl s))))
      ++ (if fst (pop_trailing_empty (split nl s)) then [nl] else []).
Proof.
  unfold indent_empty_lines. destruct (pop_trailing_empty (split nl s)); reflexivity.
Qed.

Lemma indent_empty_lines_idem_lines {C} (compiler : C) (ewn : bool) (L : list str) :
  Forall (sep_free nl) L ->
  (if ewn then True else exists l, last L = Some l /\ l <> []) ->
  let out := join nl (repair_lines L) ++ (if ewn then [nl] else []) in
  indent_empty_lines out compiler = out.
Proof.
  intros Hfree Hend out.
  assert (HRfree : Forall (sep_free nl) (repair_lines L)).
  { apply repair_from_sep_free; [constructor | exact Hfree]. }
  rewrite indent_empty_lines_unfold.
  destruct ewn.
  - destruct L as [|l0 L'].
    + reflexivity.
    + assert (HRne : repair_lines (l0 :: L') <> []).
      { intros E. apply (f_equal length) in E. unfold repair_lines in E.
        rewrite repair_from_length in E. discriminate. }
      assert (Hsplit : split nl out = repair_lines (l0 :: L') ++ [[]]).
      { unfold out. change [nl] with (nl :: []).
        rewrite <- join_snoc by exact HRne.
        apply split_join.
        - destruct (repair_lines (l0 :: L')); [contradiction | discriminate].
        - apply Forall_app. split; [exact HRfree | repeat constructor]. }
      rewrite Hsplit, pop_trailing_empty_snoc. simpl fst. simpl snd.
      rewrite repair_lines_idem. reflexivity.
  - destruct Hend as (l & Hlast & Hl).
    assert (HRlast : last (repair_lines L) = Some l).
    { apply repair_from_last; assumption. }
    assert (HRne : repair_lines L <> []).
    { intros E. rewrite E in HRlast. discriminate. }
    assert (Hsplit : split nl out = repair_lines L).
    { unfold out. rewrite app_nil_r. apply split_join; assumption. }
    rewrite Hsplit, (pop_trailing_empty_keep _ _ HRlast Hl). simpl fst. simpl snd.
    rewrite repair_lines_idem. reflexivity.
Qed.

(** C6. Indentation repair is idempotent: for every text [s], repairing the
    repaired text gives the repaired text. *)
Theorem indent_empty_lines_idempotent {C} (s : str) (compiler : C) :
  indent_empty_lines (indent_empty_lines s compiler) compiler
  = indent_empty_lines s compiler.
Proof.
  rewrite (indent_empty_lines_unfold s).
  pose proof (split_sep_free nl s) as Hfree.
  destruct (pop_trailing_empty_spec (split nl s) (split_nonempty nl s))
    as [(L & HL & Hpop) | (l & Hlast & Hl & Hpop)]; rewrite Hpop; simpl fst; simpl snd.
  - apply (indent_empty_lines_idem_lines compiler true L); [|exact I].
    rewrite HL in Hfree. apply Forall_app in Hfree. apply Hfree.
  - apply (indent_empty_lines_idem_lines compiler false (split nl s)); [exact Hfree|].
    exists l. split; assumption.
Qed.

End IndentEmptyLines.

(** ** The preprocessing pipeline *)

Section PreprocessPipeline.

Import Preprocess.

Lemma takewhile_replicate_tab k rest :
  hd_error rest <> Some tab ->
  takewhile (fun c => ascii_eqb c tab) (replicate k tab ++ rest) = replicate k tab.
Proof.
  intros Hrest. induction k as [|k IH]; simpl.
  - destruct rest as [|a rest']; [reflexivity|]. simpl.
    destruct (ascii_eqb a tab) eqn:E; [|reflexivity].
    apply ascii_eqb_true in E. subst a. contradiction Hrest. reflexivity.
  - rewrite IH. reflexivity.
Qed.

(** A run of [k] tabs at the start of a line becomes [4 * k] spaces, and the
    rest of the line is kept. *)
Lemma tabs_to_spaces_re_sub_run k rest :
  hd_error rest <> Some tab ->
  tabs_to_spaces_re_sub (replicate k tab ++ rest) = replicate (4 * k) space ++ rest.
Proof.
  intros Hrest. unfold tabs_to_spaces_re_sub.
  rewrite takewhile_replicate_tab by exact Hrest.
  destruct k as [|k]; [reflexivity|].
  remember (replicate (S k) tab) as m eqn:Hm.
  destruct m as [|a m']; [discriminate|]. rewrite Hm.
  unfold tab_to_space.
  rewrite length_replicate, drop_app_length'; [|symmetry; apply length_replicate].
  f_equal. f_equal. lia.
Qed.

(** Every line is a run of tabs followed by a rest that does not start
    with a tab. *)
Lemma leading_tab_run line :
  exists k rest, line = replicate k tab ++ rest /\ hd_error rest <> Some tab.
Proof.
  induction line as [|a line IH].
  - exists 0, []. split; [reflexivity | discriminate].
  - destruct (ascii_eqb a tab) eqn:E.
    + apply ascii_eqb_true in E. subst a.
      destruct IH as (k & rest & -> & Hrest).
      exists (S k), rest. split; [reflexivity | exact Hrest].
    + apply ascii_eqb_false in E. exists 0, (a :: line).
      split; [reflexivity|]. simpl. intros [= ->]. contradiction.
Qed.

Lemma tabs_to_spaces_re_sub_sep_free line :
  sep_free nl line -> sep_free nl (tabs_to_spaces_re_sub line).
Proof.
  intros Hfree. destruct (leading_tab_run line) as (k & rest & -> & Hrest).
  rewrite tabs_to_spaces_re_sub_run by exact Hrest.
  apply Forall_app in Hfree as [_ Hr]. apply Forall_app. split; [|exact Hr].
  apply Forall_replicate. discriminate.
Qed.

(** The lines of the text after tab expansion are the expanded lines. *)
Lemma split_leading_tabs_to_spaces s :
  split nl (leading_tabs_to_spaces s) = map tabs_to_spaces_re_sub (split nl s).
Proof.
  unfold leading_tabs_to_spaces. apply split_join.
  - pose proof (split_nonempty nl s). destruct (split nl s); [contradiction | discriminate].
  - pose proof (split_sep_free nl s) as Hfree.
    induction Hfree; constructor; [apply tabs_to_spaces_re_sub_sep_free|]; assumption.
Qed.

Lemma min_by_len_shorter p n : min_by_len p n = shorter p n.
Proof.
  unfold min_by_len, shorter.
  destruct (Nat.ltb_spec (length n) (length p)), (Nat.leb_spec (length p) (length n));
    try reflexivity; lia.
Qed.

(** Line [i] of the loop's result, from line [i] and its two neighbours. *)
Lemma repair_from_lookup L : forall p i l,
  L !! i = Some l ->
  repair_from p L !! i
  = Some (repair_line (match i with O => p | S j => default [] (L !! j) end,
                       l, default [] (L !! S i))).
Proof.
  induction L as [|l0 rest IH]; intros p i l Hi; [discriminate|].
  rewrite repair_from_cons. destruct i as [|j].
  - simpl in Hi. injection Hi as ->. destruct rest; reflexivity.
  - simpl in Hi.
    change ((repair_line (p, l0, hd [] rest) :: repair_from l0 rest) !! S j)
      with (repair_from l0 rest !! j).
    rewrite (IH l0 j l Hi). destruct j; reflexivity.
Qed.

Lemma repair_lines_lookup L i l :
  L !! i = Some l ->
  repair_lines L !! i
  = Some (if length l =? 0
          then shorter (leading_whitespace (line_before L i))
                       (leading_whitespace (line_after L i))
          else l).
Proof.
  intros Hi. unfold repair_lines. rewrite (repair_from_lookup L [] i l Hi).
  f_equal. destruct l as [|a l'].
  - rewrite repair_line_empty, min_by_len_shorter. destruct i; reflexivity.
  - reflexivity.
Qed.


End PreprocessPipeline.

(** ** Facts about [strip], [endswith] and [rpartition] *)

Section StripPartition.

Lemma startswith_cons a s b p :
  startswith (a :: s) (b :: p) = ascii_eqb b a && startswith s p.
Proof. reflexivity. Qed.

Lemma startswith_app s p : startswith (p ++ s) p = true.
Proof.
  induction p as [|a p IH]; simpl; [destruct s; reflexivity|].
  rewrite ascii_eqb_refl. exact IH.
Qed.

Lemma startswith_inv s p : startswith s p = true -> exists r, s = p ++ r.
Proof.
  revert s. induction p as [|a p IH]; intros s H.
  - exists s. reflexivity.
  - destruct s as [|b s]; [discriminate|]. simpl in H.
    apply andb_true_iff in H as [Hab Hs]. apply ascii_eqb_true in Hab. subst b.
    destruct (IH s Hs) as [r ->]. exists r. reflexivity.
Qed.

Lemma endswith_app s suffix : endswith (s ++ suffix) suffix = true.
Proof. unfold endswith. rewrite rev_app_distr. apply startswith_app. Qed.

Lemma endswith_inv s suffix : endswith s suffix = true -> exists b, s = b ++ suffix.
Proof.
  unfold endswith. intros H. apply startswith_inv in H as [r Hr].
  exists (rev r). apply (f_equal (@rev ascii)) in Hr.
  rewrite rev_involutive, rev_app_distr, rev_involutive in Hr. exact Hr.
Qed.

Lemma removesuffix_app s suffix : removesuffix (s ++ suffix) suffix = s.
Proof.
  unfold removesuffix. rewrite endswith_app, length_app.
  replace (length s + length suffix - length suffix) with (length s) by lia.
  apply take_app_length.
Qed.

Lemma dropwhile_app_stop (P : ascii -> bool) s a r :
  P a = false -> dropwhile P (s ++ a :: r) = dropwhile P s ++ a :: r.
Proof.
  intros Ha. induction s as [|b s IH]; simpl.
  - rewrite Ha. reflexivity.
  - destruct (P b); [exact IH | reflexivity].
Qed.

Lemma dropwhile_stop (P : ascii -> bool) a r :
  P a = false -> dropwhile P (a :: r) = a :: r.
Proof. intros Ha. simpl. rewrite Ha. reflexivity. Qed.

(** Stripping a text whose last character is kept only strips the front. *)
Lemma strip_keep_last (P : ascii -> bool) s a :
  P a = false -> strip P (s ++ [a]) = dropwhile P s ++ [a].
Proof.
  intros Ha. unfold strip.
  rewrite (dropwhile_app_stop P s a [] Ha), rev_app_distr. simpl rev at 2.
  change ([a] ++ rev (dropwhile P s)) with (a :: rev (dropwhile P s)).
  rewrite dropwhile_stop by exact Ha.
  change (a :: rev (dropwhile P s)) with ([a] ++ rev (dropwhile P s)).
  rewrite rev_app_distr, rev_involutive. reflexivity.
Qed.

(** The text handed to the parser: the text in front of [??] without its
    leading white space. *)
Lemma strip_removesuffix_qq body :
  removesuffix (strip is_space (body ++ py "??")) (py "??") = dropwhile is_space body.
Proof.
  change (py "??") with (["?"%char] ++ ["?"%char]) at 1.
  rewrite app_assoc.
  rewrite strip_keep_last by reflexivity.
  rewrite (dropwhile_app_stop is_space body "?"%char [] eq_refl).
  rewrite <- app_assoc. apply removesuffix_app.
Qed.

Lemma dropwhile_suffix (P : ascii -> bool) s : exists pre, s = pre ++ dropwhile P s.
Proof. exists (takewhile P s). symmetry. apply takewhile_dropwhile. Qed.

Lemma strip_In (P : ascii -> bool) s a : In a (strip P s) -> In a s.
Proof.
  unfold strip. intros H. apply in_rev in H.
  destruct (dropwhile_suffix P (rev (dropwhile P s))) as [pre1 H1].
  assert (H2 : In a (rev (dropwhile P s))) by (rewrite H1; apply in_or_app; auto).
  apply in_rev in H2.
  destruct (dropwhile_suffix P s) as [pre2 H3]. rewrite H3. apply in_or_app. auto.
Qed.

Lemma endswith_char_In s a : endswith s [a] = true -> In a s.
Proof.
  intros H. apply endswith_inv in H as [b ->]. apply in_or_app. right. left. reflexivity.
Qed.

Lemma partition_spec c s :
  match partition c s with
  | (l, true, r) => s = l ++ c :: r /\ sep_free c l
  | (l, false, r) => sep_free c s
  end.
Proof.
  induction s as [|a s IH]; simpl; [constructor|].
  destruct (ascii_eqb a c) eqn:E.
  - apply ascii_eqb_true in E. subst a. split; [reflexivity | constructor].
  - apply ascii_eqb_false in E.
    destruct (partition c s) as [[l found] r]. destruct found.
    + destruct IH as [-> Hl]. split; [reflexivity | constructor; assumption].
    + constructor; assumption.
Qed.

Lemma sep_free_not_In c s : sep_free c s -> ~ In c s.
Proof.
  intros Hfree Hin. unfold sep_free in Hfree. rewrite Forall_forall in Hfree.
  apply list_elem_of_In in Hin. exact (Hfree c Hin eq_refl).
Qed.

Lemma sep_free_rev c s : sep_free c s -> sep_free c (rev s).
Proof.
  unfold sep_free. rewrite !Forall_forall. intros H a Ha. apply H.
  apply list_elem_of_In. apply list_elem_of_In in Ha. apply in_rev. exact Ha.
Qed.

(** [rpartition] splits at the last separator when there is one. *)
Lemma rpartition_spec c s :
  In c s ->
  exists l r, rpartition c s = (l, [c], r) /\ s = l ++ c :: r /\ sep_free c r.
Proof.
  intros Hin. unfold rpartition.
  pose proof (partition_spec c (rev s)) as Hp.
  destruct (partition c (rev s)) as [[a found] b]. destruct found.
  - destruct Hp as [Hrev Ha]. exists (rev b), (rev a).
    split; [reflexivity|]. split; [|apply sep_free_rev; exact Ha].
    apply (f_equal (@rev ascii)) in Hrev.
    rewrite rev_involutive, rev_app_distr in Hrev. simpl in Hrev.
    rewrite <- app_assoc in Hrev. exact Hrev.
  - exfalso. apply (sep_free_not_In c (rev s) Hp). apply in_rev.
    rewrite rev_involutive. exact Hin.
Qed.

Lemma dropwhile_all_app (P : ascii -> bool) s a r :
  forallb P s = true -> P a = false -> dropwhile P (s ++ a :: r) = a :: r.
Proof.
  intros Hs Ha. induction s as [|b s IH]; simpl.
  - rewrite Ha. reflexivity.
  - simpl in Hs. apply andb_true_iff in Hs as [Hb Hs]. rewrite Hb. apply IH. exact Hs.
Qed.

Lemma forallb_rev (P : ascii -> bool) s : forallb P s = true -> forallb P (rev s) = true.
Proof.
  rewrite !forallb_forall. intros H a Ha. apply H. apply in_rev. exact Ha.
Qed.

(** A text with a character that is kept, followed by characters that are
    stripped: the stripped text ends with the kept character. *)
Lemma strip_stops_at (P : ascii -> bool) l a r :
  P a = false -> forallb P r = true ->
  strip P (l ++ a :: r) = dropwhile P l ++ [a].
Proof.
  intros Ha Hr. unfold strip.
  rewrite (dropwhile_app_stop P l a r Ha), rev_app_distr. simpl rev at 2.
  rewrite <- app_assoc. change ([a] ++ rev (dropwhile P l)) with (a :: rev (dropwhile P l)).
  rewrite (dropwhile_all_app P (rev r) a _ (forallb_rev P r Hr) Ha).
  change (a :: rev (dropwhile P l)) with ([a] ++ rev (dropwhile P l)).
  rewrite rev_app_distr, rev_involutive. reflexivity.
Qed.

(** The place of the first separator is determined by the texts around
    it. *)
Lemma first_sep_unique c a1 : forall a2 b1 b2,
  sep_free c a1 -> sep_free c a2 ->
  a1 ++ c :: b1 = a2 ++ c :: b2 -> a1 = a2 /\ b1 = b2.
Proof.
  induction a1 as [|x a1 IH]; intros a2 b1 b2 H1 H2 Heq.
  - destruct a2 as [|y a2]; simpl in Heq.
    + injection Heq as ->. auto.
    + injection Heq as <- _. inversion H2; subst. contradiction.
  - destruct a2 as [|y a2]; simpl in Heq.
    + injection Heq as -> _. inversion H1; subst. contradiction.
    + injection Heq as -> Heq. inversion H1; subst. inversion H2; subst.
      destruct (IH a2 b1 b2) as [-> ->]; auto.
Qed.

Lemma last_sep_unique c l1 l2 r1 r2 :
  sep_free c r1 -> sep_free c r2 ->
  l1 ++ c :: r1 = l2 ++ c :: r2 -> l1 = l2 /\ r1 = r2.
Proof.
  intros H1 H2 Heq. apply (f_equal (@rev ascii)) in Heq.
  rewrite !rev_app_distr in Heq. simpl in Heq. rewrite <- !app_assoc in Heq.
  simpl in Heq.
  destruct (first_sep_unique c (rev r1) (rev r2) (rev l1) (rev l2)
              (sep_free_rev c r1 H1) (sep_free_rev c r2 H2) Heq) as [Hr Hl].
  apply (f_equal (@rev ascii)) in Hr, Hl. rewrite !rev_involutive in Hr, Hl. auto.
Qed.

Lemma letters_sep_free_bang r : forallb is_ascii_letter r = true -> sep_free bang r.
Proof.
  rewrite forallb_forall. intros H. apply Forall_forall. intros a Ha ->.
  apply list_elem_of_In in Ha. specialize (H _ Ha). discriminate.
Qed.

(** A text whose last character is not a question mark does not end in
    [??]. *)
Lemma endswith_qq_letters l r :
  forallb is_ascii_letter r = true ->
  endswith (l ++ bang :: r) (py "??") = false.
Proof.
  intros Hr. unfold endswith. rewrite rev_app_distr.
  change (rev (bang :: r)) with (rev r ++ [bang]).
  change (rev (py "??")) with ["?"%char; "?"%char].
  apply forallb_rev in Hr. destruct (rev r) as [|a rr] eqn:E.
  - reflexivity.
  - simpl in Hr. apply andb_true_iff in Hr as [Ha _].
    change (((a :: rr) ++ [bang]) ++ rev l) with (a :: (rr ++ [bang]) ++ rev l).
    rewrite startswith_cons.
    destruct (ascii_eqb "?" a) eqn:Eq; [|reflexivity].
    apply ascii_eqb_true in Eq. subst a. discriminate.
Qed.

End StripPartition.

(** ** Desugaring *)

Section DesugarFacts.

Import Preprocess.

Variable ast_parse : str -> parse_result.
Variable ast_unparse : ast_node -> result str.

Local Abbreviation visit := (visit ast_unparse).
Local Abbreviation visit_all := (visit_all ast_unparse).
Local Abbreviation first_reference_visited := (first_reference_visited ast_unparse).
Local Abbreviation find_first_identifier := (find_first_identifier ast_parse ast_unparse).
Local Abbreviation desugar := (desugar ast_parse ast_unparse).

(** Induction on syntax trees, with the hypothesis for every child. *)
Lemma ast_node_induction (P : ast_node -> Prop) :
  (forall cls children, Forall P children -> P (AstNode cls children)) ->
  forall node, P node.
Proof.
  intros H. fix IH 1. intros [cls children]. apply H.
  induction children as [|c cs IHcs]; constructor; [apply IH | exact IHcs].
Qed.

Lemma head_app {A} (l1 l2 : list A) :
  head (l1 ++ l2) = match head l1 with Some x => Some x | None => head l2 end.
Proof. destruct l1; reflexivity. Qed.

Lemma find_app {A} (f : A -> bool) (l1 l2 : list A) :
  List.find f (l1 ++ l2)
  = match List.find f l1 with Some x => Some x | None => List.find f l2 end.
Proof.
  induction l1 as [|a l1 IH]; simpl; [reflexivity|].
  destruct (f a); [reflexivity | exact IH].
Qed.

Lemma visit_generic children :
  visit (AstNode OtherNode children) = visit_all children.
Proof. induction children as [|c cs IH]; reflexivity. Qed.

Lemma head_visit node : first_reference_visited node.
Proof.
  unfold Preprocess.first_reference_visited.
  induction node as [cls children IH] using ast_node_induction.
  destruct cls.
  1,2: cbn [preorder List.find is_reference Preprocess.visit];
       destruct (ast_unparse _) as [text|err]; [|reflexivity];
       intros exprs [= <-]; reflexivity.
  rewrite visit_generic.
  change (List.find is_reference (preorder (AstNode OtherNode children)))
    with (List.find is_reference (flat_map preorder children)).
  induction IH as [|c cs Hc Hcs IHcs]; [reflexivity|].
  cbn [flat_map Preprocess.visit_all]. rewrite find_app.
  destruct (List.find is_reference (preorder c)) as [ref|].
  - destruct (ast_unparse ref) as [text|err].
    + intros exprs Hv. destruct (visit c) as [es|e]; [|discriminate].
      destruct (visit_all cs) as [es'|e']; [|discriminate].
      injection Hv as <-. rewrite head_app, (Hc es eq_refl). reflexivity.
    + rewrite Hc. reflexivity.
  - rewrite Hc.
    destruct (List.find is_reference (flat_map preorder cs)) as [ref|].
    + destruct (ast_unparse ref) as [text|err].
      * intros exprs Hv. destruct (visit_all cs) as [es'|e']; [|discriminate].
        injection Hv as <-. apply IHcs. reflexivity.
      * rewrite IHcs. reflexivity.
    + rewrite IHcs. reflexivity.
Qed.

Lemma find_first_identifier_spec text :
  find_first_identifier text =
    match ast_parse text with
    | SyntaxError => Raise (DesugaringException (py "invalid syntax"))
    | ParseRaises err => Raise err
    | Parsed tree =>
        match visit tree with
        | Raise err => Raise err
        | Ok [] => Raise (DesugaringException (py "no identifier names in source"))
        | Ok (identifier :: _) => Ok identifier
        end
    end.
Proof.
  unfold Preprocess.find_first_identifier.
  destruct (ast_parse text) as [tree| |err]; try reflexivity.
  destruct (visit tree) as [[|e exprs]|err]; reflexivity.
Qed.

Lemma desugar_doc body :
  desugar (body ++ py "??") =
    match ast_parse (dropwhile is_space body) with
    | SyntaxError => Ok (fallback_print (py "invalid syntax"))
    | ParseRaises err => except_DesugaringException err
    | Parsed tree =>
        match visit tree with
        | Raise err => except_DesugaringException err
        | Ok [] => Ok (fallback_print (py "no identifier names in source"))
        | Ok (identifier :: _) => Ok (doc_print identifier)
        end
    end.
Proof.
  unfold Preprocess.desugar. rewrite endswith_app, strip_removesuffix_qq.
  rewrite find_first_identifier_spec.
  destruct (ast_parse (dropwhile is_space body)) as [tree| |err]; try reflexivity.
  destruct (visit tree) as [[|e exprs]|err]; reflexivity.
Qed.

Lemma desugar_pipe source :
  endswith source (py "??") = false ->
  endswith (strip is_ascii_letter source) (py "!") = true ->
  exists left_ right_,
    source = left_ ++ bang :: right_ /\ sep_free bang right_
    /\ desugar source = Ok (right_ ++ py "(" ++ left_ ++ py ")").
Proof.
  intros Hqq Hbang. unfold Preprocess.desugar. rewrite Hqq, Hbang.
  assert (Hin : In bang source).
  { apply (strip_In is_ascii_letter). apply endswith_char_In. exact Hbang. }
  destruct (rpartition_spec bang source Hin) as (l & r & Hrp & Hs & Hr).
  exists l, r. rewrite Hrp. auto.
Qed.

(** [left!right] with a right part made of letters is the call
    [right(left)]. *)
Lemma desugar_pipe_letters left_ right_ :
  forallb is_ascii_letter right_ = true ->
  desugar (left_ ++ bang :: right_) = Ok (right_ ++ py "(" ++ left_ ++ py ")").
Proof.
  intros Hr.
  destruct (desugar_pipe (left_ ++ bang :: right_)) as (l & r & Hs & Hfree & Hd).
  - apply endswith_qq_letters. exact Hr.
  - rewrite (strip_stops_at is_ascii_letter left_ bang right_ eq_refl Hr).
    apply endswith_app.
  - destruct (last_sep_unique bang left_ l right_ r
                (letters_sep_free_bang right_ Hr) Hfree Hs) as [-> ->].
    exact Hd.
Qed.

(** A line that does not end in [??] never raises. *)
Lemma desugar_total source :
  endswith source (py "??") = false -> exists out, desugar source = Ok out.
Proof.
  intros Hqq. unfold Preprocess.desugar. rewrite Hqq.
  destruct (endswith (strip is_ascii_letter source) (py "!")); [|eauto].
  destruct (rpartition bang source) as [[l sep] r]. eauto.
Qed.

(** [desugar] raises only for a line that ends in [??], and then what the
    parser or the visitor raised. *)
Lemma desugar_raises source err :
  desugar source = Raise err ->
  exists body,
    source = body ++ py "??"
    /\ (forall exc, err <> DesugaringException exc)
    /\ (ast_parse (dropwhile is_space body) = ParseRaises err
        \/ exists tree,
             ast_parse (dropwhile is_space body) = Parsed tree
             /\ visit tree = Raise err).
Proof.
  intros Hd. destruct (endswith source (py "??")) eqn:Hqq.
  - destruct (endswith_inv _ _ Hqq) as (body & ->). exists body.
    split; [reflexivity|]. rewrite desugar_doc in Hd.
    assert (He : forall e, except_DesugaringException e = Raise err ->
                   e = err /\ forall exc, err <> DesugaringException exc).
    { intros e H. destruct e; try discriminate; injection H as <-;
        (split; [reflexivity | discriminate]). }
    destruct (ast_parse (dropwhile is_space body)) as [tree| |e]; [| discriminate |].
    + destruct (visit tree) as [[|x exprs]|e] eqn:Hv; try discriminate.
      destruct (He e Hd) as [-> Hne]. split; [exact Hne|]. right. eauto.
    + destruct (He e Hd) as [-> Hne]. auto.
  - destruct (desugar_total source Hqq) as (out & Ho). congruence.
Qed.

(** C5. Shorthand desugaring. ["x!f"] becomes ["f(x)"], as does every
    [left!right] whose right part is made of letters; every line that does
    not end in [??] and ends in [!] once the letters at both ends are
    stripped is split at its last [!] and rewritten from [left!right] to
    [right(left)]. A line [body??] whose body gives a [SyntaxError] becomes
    a print statement that names the failure, as does one whose tree has no
    name or attribute reference; one whose walk ends becomes a statement
    that prints the documentation of the first such reference, in
    pre-order, or a no-docstring text. But [desugar] does raise: an
    exception of [ast.parse] other than [SyntaxError], as the [ValueError]
    for a null character, and an exception of [ast.unparse] pass through
    [find_first_identifier] and [desugar], which raises nothing else. *)
Theorem desugar_spec :
  desugar (py "x!f") = Ok (py "f(x)")
  /\ (forall left_ right_,
        forallb is_ascii_letter right_ = true ->
        desugar (left_ ++ bang :: right_) = Ok (right_ ++ py "(" ++ left_ ++ py ")"))
  /\ (forall source,
        endswith source (py "??") = false ->
        endswith (strip is_ascii_letter source) (py "!") = true ->
        exists left_ right_,
          source = left_ ++ bang :: right_ /\ sep_free bang right_
          /\ desugar source = Ok (right_ ++ py "(" ++ left_ ++ py ")"))
  /\ (forall body,
        desugar (body ++ py "??") =
          match ast_parse (dropwhile is_space body) with
          | SyntaxError =>
              Ok (py "print('Unable to find docs (invalid syntax)')")
          | ParseRaises err => except_DesugaringException err
          | Parsed tree =>
              match visit tree with
              | Raise err => except_DesugaringException err
              | Ok [] =>
                  Ok (py "print('Unable to find docs (no identifier names in source)')")
              | Ok (identifier :: _) =>
                  Ok (py "print(" ++ identifier ++ py ".__doc__ or "
                        ++ [dquote] ++ py "'" ++ identifier
                        ++ py "' has no docstring" ++ [dquote] ++ py ")")
              end
          end)
  /\ (forall tree, first_reference_visited tree)
  /\ (forall body err,
        ast_parse (dropwhile is_space body) = ParseRaises err ->
        (forall exc, err <> DesugaringException exc) ->
        desugar (body ++ py "??") = Raise err)
  /\ (forall source err,
        desugar source = Raise err ->
        exists body,
          source = body ++ py "??"
          /\ (forall exc, err <> DesugaringException exc)
          /\ (ast_parse (dropwhile is_space body) = ParseRaises err
              \/ exists tree,
                   ast_parse (dropwhile is_space body) = Parsed tree
                   /\ visit tree = Raise err)).
Proof.
  split; [reflexivity|]. split; [exact desugar_pipe_letters|].
  split; [exact desugar_pipe|]. split; [|split; [exact head_visit|split]].
  - intros body. rewrite desugar_doc. reflexivity.
  - intros body err Hp Hne. rewrite desugar_doc, Hp.
    destruct err; try reflexivity. destruct (Hne msg eq_refl).
  - exact desugar_raises.
Qed.

End DesugarFacts.

(** ** The event coalescer *)

Section CoalescerFacts.

Import Coalescer.

Variable P : Type.
Variable provider_send : timeout_t -> P -> Raw * P.
Variable paste_threshold : Z.

Local Abbreviation probe := (probe P provider_send).
Local Abbreviation probes := (probes P provider_send).
Local Abbreviation loop := (_combined_events P provider_send paste_threshold).
Local Abbreviation send := (send P provider_send paste_threshold).
Local Abbreviation sends := (sends P provider_send paste_threshold).

(** Probing reads the whole run of key presses and the value that ends it. *)
Lemma probe_run p ks u p' :
  probes p ks u p' ->
  forall q fuel, length ks < fuel -> probe fuel q p = Some (q ++ ks, u, p').
Proof.
  induction 1 as [p u p' Hsend Hu | p k p1 ks u p' Hsend Hrun IH]; intros q fuel Hfuel.
  - destruct fuel as [|fuel]; [simpl in Hfuel; lia|].
    simpl. rewrite Hsend, app_nil_r. destruct u; [reflexivity | reflexivity | contradiction].
  - destruct fuel as [|fuel]; [simpl in Hfuel; lia|].
    simpl. rewrite Hsend, IH by (simpl in Hfuel; lia).
    rewrite <- app_assoc. reflexivity.
Qed.

(** One pass of the loop on a run of key presses: the threshold decides. *)
Lemma loop_run p t k p1 ks u p' fuel :
  provider_send t p = (Keystroke k, p1) ->
  probes p1 ks u p' ->
  length (k :: ks) < fuel ->
  loop fuel t [] p
  = if (paste_threshold <=? Z.of_nat (length (k :: ks)))%Z
    then Some (Structured (PasteEvent (k :: ks)), mkGen AtYield [], p')
    else Some (Keystroke k, mkGen AtDrain ks, p').
Proof.
  intros Hsend Hrun Hfuel. destruct fuel as [|fuel]; [simpl in Hfuel; lia|].
  cbn [_combined_events]. rewrite Hsend.
  rewrite (probe_run p1 ks u p' Hrun) by (simpl in Hfuel |- *; lia).
  reflexivity.
Qed.

Lemma send_idle fuel t g p :
  idle g -> send fuel t g p = loop fuel t [] p.
Proof.
  intros [Hpc | Hq]; unfold Coalescer.send.
  - rewrite Hpc. reflexivity.
  - rewrite Hq. destruct (pc g); reflexivity.
Qed.

(** The draining loop yields the queued key presses one per [send] and does
    not touch the provider. *)
Lemma sends_drain ks : forall fuel ts p,
  length ts = length ks ->
  sends fuel ts (mkGen AtDrain ks) p = Some (map Keystroke ks, mkGen AtDrain [], p).
Proof.
  induction ks as [|k ks IH]; intros fuel ts p Hlen.
  - destruct ts; [reflexivity | discriminate].
  - destruct ts as [|t ts]; [discriminate|].
    cbn [Coalescer.sends]. unfold Coalescer.send at 1. cbn [pc queue].
    rewrite IH by (simpl in Hlen; lia). reflexivity.
Qed.

(** C2. A maximal run of key presses, read by a generator that has nothing
    queued: the blocking read gives the first key press and the non-blocking
    reads give the others and then a value that is not a key press. When
    the run is shorter than [paste_threshold], one [send] per key press
    yields the key presses one by one in their order; when it has at least
    [paste_threshold] key presses, one [send] yields one paste event with
    all of them in their order. Either way the provider is left behind the
    value that ended the run. With threshold 3, the script
    [a, b, c, timeout] yields the paste event of [a, b, c] and then
    [None]. *)
Theorem coalescer_threshold_rule (g : Gen) (p p1 p' : P) (t : timeout_t)
    (k : Key) (ks : list Key) (u : Raw) (fuel : nat) :
  idle g ->
  provider_send t p = (Keystroke k, p1) ->
  probes p1 ks u p' ->
  length (k :: ks) < fuel ->
  ((Z.of_nat (length (k :: ks)) < paste_threshold)%Z ->
     forall ts, length ts = length ks ->
       sends fuel (t :: ts) g p
       = Some (map Keystroke (k :: ks), mkGen AtDrain [], p'))
  /\ ((paste_threshold <= Z.of_nat (length (k :: ks)))%Z ->
       send fuel t g p
       = Some (Structured (PasteEvent (k :: ks)), mkGen AtYield [], p'))
  /\ (forall a b c t1 t2,
        Coalescer.sends (list Raw) script_send 3 4 [t1; t2] combined_events
          [Keystroke a; Keystroke b; Keystroke c; Timeout]
        = Some ([Structured (PasteEvent [a; b; c]); Timeout], mkGen AtYield [], [])).
Proof.
  intros Hidle Hsend Hrun Hfuel.
  split; [|split].
  - intros Hlt ts Hlen.
    cbn [Coalescer.sends]. rewrite send_idle by exact Hidle.
    rewrite (loop_run p t k p1 ks u p' fuel Hsend Hrun Hfuel).
    destruct (Z.leb_spec paste_threshold (Z.of_nat (length (k :: ks)))); [lia|].
    rewrite sends_drain by exact Hlen. reflexivity.
  - intros Hge. rewrite send_idle by exact Hidle.
    rewrite (loop_run p t k p1 ks u p' fuel Hsend Hrun Hfuel).
    destruct (Z.leb_spec paste_threshold (Z.of_nat (length (k :: ks)))); [reflexivity | lia].
  - intros a b c t1 t2. reflexivity.
Qed.

End CoalescerFacts.

(** ** The event coalescer on a scripted provider *)

Section CoalescerScript.

Import Coalescer.

Variable paste_threshold : Z.

(** On a script, a run of key presses is read up to the value that follows
    it, or up to the end of the script. *)
Lemma probes_script ks : forall rest,
  is_keystroke (stopper rest) = false ->
  probes (list Raw) script_send (map Keystroke ks ++ rest) ks (stopper rest) (tl rest).
Proof.
  induction ks as [|k ks IH]; intros rest Hstop.
  - apply probes_stop.
    + destruct rest; reflexivity.
    + destruct (stopper rest); [exact I | exact I | discriminate].
  - eapply probes_key; [reflexivity | apply IH; exact Hstop].
Qed.

(** The value that ends a probe is read from the provider and not yielded:
    after the run is emitted the provider stands behind that value, whatever
    it was. *)
Lemma send_run_consumes_stopper k ks u rest fuel t g :
  idle g -> is_keystroke u = false -> length (k :: ks) < fuel ->
  send (list Raw) script_send paste_threshold fuel t g
    (map Keystroke (k :: ks) ++ u :: rest)
  = send (list Raw) script_send paste_threshold fuel t g
      (map Keystroke (k :: ks) ++ Timeout :: rest).
Proof.
  intros Hidle Hu Hfuel. rewrite !send_idle by exact Hidle.
  rewrite (loop_run (list Raw) script_send paste_threshold
             (map Keystroke (k :: ks) ++ u :: rest) t k
             (map Keystroke ks ++ u :: rest) ks u rest fuel
             eq_refl (probes_script ks (u :: rest) Hu) Hfuel).
  rewrite (loop_run (list Raw) script_send paste_threshold
             (map Keystroke (k :: ks) ++ Timeout :: rest) t k
             (map Keystroke ks ++ Timeout :: rest) ks Timeout rest fuel
             eq_refl (probes_script ks (Timeout :: rest) eq_refl) Hfuel).
  reflexivity.
Qed.

End CoalescerScript.

(** C1. A structured event that arrives while the generator probes: the key
    press read before it is yielded alone, and the event itself is never
    yielded; the following [send]s find the script used up and yield
    [None]. The same event at the top of the loop is yielded. *)
Theorem coalescer_drops_probed_event :
  Coalescer.sends (list Raw) Coalescer.script_send 3 4 [None; None; None]
    Coalescer.combined_events [Keystroke "a"%string; Structured ReloadEvent]
  = Some ([Keystroke "a"%string; Timeout; Timeout], Coalescer.mkGen Coalescer.AtYield [], [])
  /\ Coalescer.sends (list Raw) Coalescer.script_send 3 4 [None; None; None]
       Coalescer.combined_events [Structured ReloadEvent; Keystroke "a"%string]
     = Some ([Structured ReloadEvent; Keystroke "a"%string; Timeout],
             Coalescer.mkGen Coalescer.AtYield [], []).
Proof. split; reflexivity. Qed.

(** ** The driver: painting, termination, suspend and resume *)

Section DriverFacts.

Import Driver DriverClaims.

Context {X Value Frame : Type}.
Variable E : Externals X Value Frame.

Local Abbreviation Repl := (Repl X Value).

(** What a paint adds: one call of [paint], one call of the renderer, and
    the reported amount on the [scroll_offset] that [paint] left. *)
Lemma paint_and_render_spec args (r : Repl) :
  exists scrolled,
    trace (paint_and_render E args r) = trace r ++ [APaint args; ARender scrolled]
    /\ scroll_offset (paint_and_render E args r)
       = ((paint E args (scroll_offset r) (world r)).1.2 + scrolled)%Z
    /\ locals (paint_and_render E args r) = locals r.
Proof.
  unfold paint_and_render.
  destruct (paint E args (scroll_offset r) (world r)) as [[frame so] w1].
  cbn [log set_world set_scroll_offset world trace scroll_offset locals].
  destruct (render_to_terminal E frame w1) as [scrolled w2].
  exists scrolled. cbn. rewrite <- app_assoc. auto.
Qed.



End DriverFacts.

(** ** The driver: what every run of the main loop preserves *)

Section DriverLoops.

Import Driver DriverClaims.

Context {X Value Frame : Type}.
Variable E : Externals X Value Frame.

Local Abbreviation Repl := (Repl X Value).

(** A relation between states that is kept by every step of the driver,
    under an invariant of the state. *)
Variable R : Repl -> Repl -> Prop.
Variable Inv : Repl -> Prop.

Hypothesis R_refl : forall r, R r r.
Hypothesis R_trans : forall r1 r2 r3, R r1 r2 -> R r2 r3 -> R r1 r3.
Hypothesis step_world : forall w r, Inv r -> Inv (set_world w r) /\ R r (set_world w r).
Hypothesis step_event :
  forall e r, Inv r -> Inv (process_event E e r).2 /\ R r (process_event E e r).2.

Lemma scan_loop_preserves fuel steps : forall inputs r,
  Inv r ->
  Inv (scan_loop E fuel steps inputs r).2 /\ R r (scan_loop E fuel steps inputs r).2.
Proof.
  induction steps as [|steps IH]; intros inputs r HI; [split; [exact HI | apply R_refl]|].
  cbn [scan_loop].
  destruct (Coalescer.send X (input_send E) Coalescer.default_paste_threshold
              fuel (Some 0%Z) inputs (world r)) as [[[e inputs'] w]|];
    [|split; [exact HI | apply R_refl]].
  destruct (step_world w r HI) as [HI1 HR1].
  assert (Hskip : Inv (scan_loop E fuel steps inputs' (set_world w r)).2
                  /\ R r (scan_loop E fuel steps inputs' (set_world w r)).2).
  { destruct (IH inputs' (set_world w r) HI1) as [HI2 HR2].
    split; [exact HI2 | exact (R_trans _ _ _ HR1 HR2)]. }
  assert (Hdisp : forall e', e' = e ->
            Inv (match process_event E e' (set_world w r) with
                 | (Ok _, r0) => scan_loop E fuel steps inputs' r0
                 | (Raise err, r0) => (Raised err, inputs', r0)
                 end).2
            /\ R r (match process_event E e' (set_world w r) with
                 | (Ok _, r0) => scan_loop E fuel steps inputs' r0
                 | (Raise err, r0) => (Raised err, inputs', r0)
                 end).2).
  { intros e' _. destruct (step_event e' (set_world w r) HI1) as [HI2 HR2].
    destruct (process_event E e' (set_world w r)) as [[u|err] r0]; cbn [snd] in *.
    - destruct (IH inputs' r0 HI2) as [HI3 HR3].
      split; [exact HI3 | exact (R_trans _ _ _ HR1 (R_trans _ _ _ HR2 HR3))].
    - split; [exact HI2 | exact (R_trans _ _ _ HR1 HR2)]. }
  destruct e; [apply (Hdisp _ eq_refl) | exact Hskip | apply (Hdisp _ eq_refl)].
Qed.

Lemma event_loop_preserves fuel rounds : forall inputs r,
  Inv r ->
  Inv (event_loop E fuel rounds inputs r).2 /\ R r (event_loop E fuel rounds inputs r).2.
Proof.
  induction rounds as [|rounds IH]; intros inputs r HI; [split; [exact HI | apply R_refl]|].
  cbn [event_loop].
  destruct (Coalescer.send X (input_send E) Coalescer.default_paste_threshold
              fuel None inputs (world r)) as [[[e inputs'] w]|];
    [|split; [exact HI | apply R_refl]].
  destruct (step_world w r HI) as [HI1 HR1].
  destruct (step_event e (set_world w r) HI1) as [HI2 HR2].
  destruct (process_event E e (set_world w r)) as [[u|err] r0]; cbn [snd] in *.
  - destruct (IH inputs' r0 HI2) as [HI3 HR3].
    split; [exact HI3 | exact (R_trans _ _ _ HR1 (R_trans _ _ _ HR2 HR3))].
  - split; [exact HI2 | exact (R_trans _ _ _ HR1 HR2)].
Qed.

(** The main loop from a state that satisfies the invariant, when the
    warm-up keeps the relation and, where it returns, the invariant. *)
Lemma mainloop_preserves (interactive : bool) paste fuel steps rounds (r : Repl) :
  (if interactive
   then R r (warm_up E r).2 /\ ((warm_up E r).1 = Ok tt -> Inv (warm_up E r).2)
   else Inv r) ->
  R r (mainloop E interactive paste fuel steps rounds r).2.
Proof.
  intros Hstart. unfold mainloop.
  assert (Hw : exists out r1,
             (if interactive then warm_up E r else (Ok tt, r)) = (out, r1)
             /\ R r r1 /\ (out = Ok tt -> Inv r1)).
  { destruct interactive.
    - destruct Hstart as [HR HI]. destruct (warm_up E r) as [out r1].
      exists out, r1. cbn [fst snd] in *. auto.
    - exists (Ok tt), r. auto. }
  destruct Hw as (out & r1 & -> & HR1 & HI1).
  destruct out as [[]|err]; [|exact HR1]. specialize (HI1 eq_refl).
  assert (Hp : exists out r2,
             (match paste with
              | Some ev => process_event E (Structured ev) r1
              | None => (Ok tt, r1)
              end) = (out, r2) /\ R r1 r2 /\ Inv r2).
  { destruct paste as [ev|].
    - destruct (step_event (Structured ev) r1 HI1) as [HI2 HR2].
      destruct (process_event E (Structured ev) r1) as [out r2].
      exists out, r2. cbn [snd] in *. auto.
    - exists (Ok tt), r1. auto. }
  destruct Hp as (out & r2 & -> & HR2 & HI2).
  destruct out as [[]|err]; [|exact (R_trans _ _ _ HR1 HR2)].
  destruct (step_event Timeout r2 HI2) as [HI3 HR3].
  destruct (process_event E Timeout r2) as [out r3]. cbn [snd] in *.
  pose proof (R_trans _ _ _ HR1 (R_trans _ _ _ HR2 HR3)) as HR13.
  destruct out as [[]|err]; [|exact HR13].
  destruct (scan_loop_preserves fuel steps Coalescer.combined_events r3 HI3) as [HI4 HR4].
  destruct (scan_loop E fuel steps Coalescer.combined_events r3) as [[out inputs] r4].
  cbn [snd] in *.
  pose proof (R_trans _ _ _ HR13 HR4) as HR14.
  destruct out; try exact HR14.
  destruct (event_loop_preserves fuel rounds inputs r4 HI4) as [HI5 HR5].
  destruct (event_loop E fuel rounds inputs r4) as [[out' inputs'] r5]. cbn [snd] in *.
  exact (R_trans _ _ _ HR14 HR5).
Qed.

End DriverLoops.

(** ** The driver: scroll offset and the interpreter's namespace *)

Section DriverInvariants.

Import Driver DriverClaims.

Context {X Value Frame : Type}.
Variable E : Externals X Value Frame.

Local Abbreviation Repl := (Repl X Value).

Lemma scrolled_total_app tr1 tr2 :
  scrolled_total (tr1 ++ tr2) = (scrolled_total tr1 + scrolled_total tr2)%Z.
Proof.
  unfold scrolled_total, scrolled_amounts. rewrite omap_app.
  induction (omap _ tr1) as [|z zs IH]; simpl; [reflexivity|]. rewrite IH. lia.
Qed.

Lemma scrolled_total_nonneg tr :
  Forall (fun z => 0 <= z)%Z (scrolled_amounts tr) -> (0 <= scrolled_total tr)%Z.
Proof.
  unfold scrolled_total. induction 1 as [|z zs Hz Hzs IH]; simpl; lia.
Qed.

Lemma dispatch_namespaces_app (tr1 tr2 : list Action) :
  dispatch_namespaces (tr1 ++ tr2) = dispatch_namespaces tr1 ++ dispatch_namespaces tr2.
Proof. apply omap_app. Qed.

Lemma new_calls_app (r r' : Repl) new : trace r' = trace r ++ new -> new_calls r r' = new.
Proof. intros H. unfold new_calls. rewrite H. apply drop_app_length. Qed.

Lemma accumulates_refl (r : Repl) : accumulates r r.
Proof. exists []. rewrite app_nil_r. split; [reflexivity | cbn; lia]. Qed.

Lemma accumulates_trans (r1 r2 r3 : Repl) :
  accumulates r1 r2 -> accumulates r2 r3 -> accumulates r1 r3.
Proof.
  intros (n1 & T1 & S1) (n2 & T2 & S2). exists (n1 ++ n2).
  rewrite T2, T1, S2, S1, scrolled_total_app, app_assoc. split; [reflexivity | lia].
Qed.

Lemma without_temporaries_refl (r : Repl) : dispatches_without_temporaries r r.
Proof. exists []. rewrite app_nil_r. split; [reflexivity | constructor]. Qed.

Lemma without_temporaries_trans (r1 r2 r3 : Repl) :
  dispatches_without_temporaries r1 r2 -> dispatches_without_temporaries r2 r3 ->
  dispatches_without_temporaries r1 r3.
Proof.
  intros (n1 & T1 & F1) (n2 & T2 & F2). exists (n1 ++ n2).
  rewrite T2, T1, app_assoc. split; [reflexivity|].
  rewrite dispatch_namespaces_app. apply Forall_app. auto.
Qed.

(** Every call of [process_event] in one statement: what it adds to the
    record and to the namespace. *)
Lemma process_event_effect e (r : Repl) :
  exists new,
    trace (process_event E e r).2 = trace r ++ new
    /\ ((e = Timeout /\ dispatch_namespaces new = []
         /\ locals (process_event E e r).2 = locals r)
        \/ (e <> Timeout /\ dispatch_namespaces new = [dom (locals r)]
            /\ locals (process_event E e r).2
               = (base_process_event E e (scroll_offset r) (locals r) (world r)).1.2)).
Proof.
  assert (Hpaint : forall args (r0 : Repl) pre,
    trace r0 = trace r ++ pre ->
    exists new,
      trace (paint_and_render E args r0) = trace r ++ new
      /\ dispatch_namespaces new = dispatch_namespaces pre
      /\ locals (paint_and_render E args r0) = locals r0).
  { intros args r0 pre Ht.
    destruct (paint_and_render_spec E args r0) as (z & T & _ & L).
    exists (pre ++ [APaint args; ARender z]).
    rewrite T, L, Ht, dispatch_namespaces_app, <- app_assoc.
    cbn. rewrite app_nil_r. repeat split; reflexivity. }
  assert (Hdisp : e <> Timeout ->
    exists new,
      trace (dispatch_then_paint E e r).2 = trace r ++ new
      /\ dispatch_namespaces new = [dom (locals r)]
      /\ locals (dispatch_then_paint E e r).2
         = (base_process_event E e (scroll_offset r) (locals r) (world r)).1.2).
  { intros He. unfold dispatch_then_paint.
    destruct (base_process_event E e (scroll_offset r) (locals r) (world r))
      as [[[out so] ns] w].
    set (r1 := log (ADispatch e (dom (locals r)))
                   (set_scroll_offset so (set_world w (set_locals ns r)))).
    assert (T1 : trace r1 = trace r ++ [ADispatch e (dom (locals r))]) by reflexivity.
    destruct out as [u|err]; [|destruct (is_termination err)]; cbn [fst snd].
    - destruct (Hpaint NoArgs r1 _ T1) as (new & T & D & L).
      exists new. rewrite T, D, L. auto.
    - destruct (Hpaint (ExitArgs true (isinstance_SystemExitFromCodeGreenlet err))
                  r1 _ T1) as (new & T & D & L).
      exists new. rewrite T, D, L. auto.
    - exists [ADispatch e (dom (locals r))]. rewrite T1.
      repeat split; reflexivity. }
  destruct e as [ev| |k].
  - destruct Hdisp as (new & T & D & L); [discriminate|].
    exists new. split; [exact T|]. right. split; [discriminate | auto].
  - destruct (Hpaint NoArgs r [] (eq_sym (app_nil_r _))) as (new & T & D & L).
    exists new. split; [exact T|]. left. auto.
  - destruct Hdisp as (new & T & D & L); [discriminate|].
    exists new. split; [exact T|]. right. split; [discriminate | auto].
Qed.

(** The warm-up, case by case on the two [del] statements. *)
Lemma warm_up_cases (r : Repl) :
  let r3 := after_injection E r in
  warm_up E r =
    match locals r3 !! "_repl"%string with
    | None => (Raise (KeyError "_repl"), r3)
    | Some _ =>
        match delete "_repl"%string (locals r3) !! "_Helper"%string with
        | None =>
            (Raise (KeyError "_Helper"),
             set_locals (delete "_repl"%string (locals r3)) r3)
        | Some _ =>
            process_event E (Structured RunStartupFileEvent)
              (set_locals (delete "_Helper"%string (delete "_repl"%string (locals r3))) r3)
        end
    end.
Proof.
  intros r3. unfold warm_up. fold (after_injection E r). fold r3.
  unfold del_local. destruct (locals r3 !! "_repl"%string); [|reflexivity].
  cbn [set_locals locals].
  destruct (delete "_repl"%string (locals r3) !! "_Helper"%string); reflexivity.
Qed.

Lemma after_injection_record (r : Repl) :
  trace (after_injection E r) = trace r
  /\ scroll_offset (after_injection E r) = scroll_offset r.
Proof.
  unfold after_injection, do_runsource.
  repeat match goal with
         | |- context [runsource E ?s ?ns ?w] => destruct (runsource E s ns w); cbn
         end.
  auto.
Qed.

Lemma same_record_accumulates (r r' : Repl) :
  trace r' = trace r -> scroll_offset r' = scroll_offset r -> accumulates r r'.
Proof.
  intros T S. exists []. rewrite T, S, app_nil_r. split; [reflexivity | cbn; lia].
Qed.

Section OwnedByDriver.

Hypothesis Howned : scroll_offset_owned_by_driver E.

(** A paint adds the reported amount to [scroll_offset]. *)
Lemma paint_and_render_adds args (r : Repl) :
  exists scrolled,
    trace (paint_and_render E args r) = trace r ++ [APaint args; ARender scrolled]
    /\ scroll_offset (paint_and_render E args r) = (scroll_offset r + scrolled)%Z.
Proof.
  destruct (paint_and_render_spec E args r) as (z & T & S & _).
  exists z. split; [exact T|]. rewrite S, (proj2 Howned). reflexivity.
Qed.

Lemma paint_and_render_accumulates args (r0 r : Repl) :
  accumulates r0 r -> accumulates r0 (paint_and_render E args r).
Proof.
  intros H. eapply accumulates_trans; [exact H|].
  destruct (paint_and_render_adds args r) as (z & T & S).
  exists [APaint args; ARender z]. split; [exact T|]. rewrite S. cbn. lia.
Qed.

Lemma dispatch_then_paint_accumulates e (r : Repl) :
  accumulates r (dispatch_then_paint E e r).2.
Proof.
  unfold dispatch_then_paint.
  pose proof (proj1 Howned e (scroll_offset r) (locals r) (world r)) as Hso.
  destruct (base_process_event E e (scroll_offset r) (locals r) (world r))
    as [[[out so] ns] w].
  cbn [fst snd] in Hso. subst so.
  assert (H1 : accumulates r
                 (log (ADispatch e (dom (locals r)))
                    (set_scroll_offset (scroll_offset r)
                       (set_world w (set_locals ns r))))).
  { exists [ADispatch e (dom (locals r))]. split; [reflexivity | cbn; lia]. }
  destruct out as [u|err]; [|destruct (is_termination err)]; cbn [snd].
  - apply paint_and_render_accumulates. exact H1.
  - apply paint_and_render_accumulates. exact H1.
  - exact H1.
Qed.

Lemma process_event_accumulates e (r : Repl) : accumulates r (process_event E e r).2.
Proof.
  destruct e; cbn [process_event snd];
    try apply dispatch_then_paint_accumulates.
  apply paint_and_render_accumulates, accumulates_refl.
Qed.

Lemma warm_up_accumulates (r : Repl) : accumulates r (warm_up E r).2.
Proof.
  rewrite warm_up_cases. destruct (after_injection_record r) as [T S].
  destruct (locals (after_injection E r) !! "_repl"%string);
    [|apply same_record_accumulates; assumption].
  destruct (delete "_repl"%string (locals (after_injection E r)) !! "_Helper"%string);
    [|apply same_record_accumulates; assumption].
  eapply accumulates_trans; [|apply process_event_accumulates].
  apply same_record_accumulates; assumption.
Qed.

Lemma mainloop_accumulates interactive paste fuel steps rounds (r : Repl) :
  accumulates r (mainloop E interactive paste fuel steps rounds r).2.
Proof.
  apply (mainloop_preserves E accumulates (fun _ => True)).
  - apply accumulates_refl.
  - apply accumulates_trans.
  - intros w r0 _. split; [exact I|]. apply same_record_accumulates; reflexivity.
  - intros e r0 _. split; [exact I|]. apply process_event_accumulates.
  - destruct interactive; [|exact I]. split; [apply warm_up_accumulates | auto].
Qed.

(** The final paint of a termination adds its one amount. *)
Lemma final_paint_adds e (r : Repl) err so ns w :
  e <> Timeout ->
  base_process_event E e (scroll_offset r) (locals r) (world r)
  = (Raise err, so, ns, w) ->
  is_termination err = true ->
  exists scrolled,
    scrolled_amounts (new_calls r (process_event E e r).2) = [scrolled]
    /\ scroll_offset (process_event E e r).2 = (scroll_offset r + scrolled)%Z.
Proof.
  intros He Hd Hterm.
  pose proof (proj1 Howned e (scroll_offset r) (locals r) (world r)) as Hso.
  rewrite Hd in Hso. cbn [fst snd] in Hso. subst so.
  set (r1 := log (ADispatch e (dom (locals r)))
                 (set_scroll_offset (scroll_offset r)
                    (set_world w (set_locals ns r)))).
  assert (Hpe : process_event E e r
                = (Raise err,
                   paint_and_render E
                     (ExitArgs true (isinstance_SystemExitFromCodeGreenlet err)) r1)).
  { unfold process_event, dispatch_then_paint.
    destruct e; try contradiction; rewrite Hd, Hterm; reflexivity. }
  rewrite Hpe. cbn [snd].
  destruct (paint_and_render_adds
              (ExitArgs true (isinstance_SystemExitFromCodeGreenlet err)) r1)
    as (z & T & S).
  exists z. rewrite S. split; [|reflexivity].
  erewrite new_calls_app; [|rewrite T; unfold r1; cbn; rewrite <- app_assoc; reflexivity].
  reflexivity.
Qed.

End OwnedByDriver.


(** The two [del] statements leave neither temporary name bound. *)
Lemma deleted_no_temporaries (r : Repl) :
  no_temporaries
    (set_locals (delete "_Helper"%string (delete "_repl"%string (locals r))) r).
Proof.
  unfold no_temporaries. cbn [set_locals locals]. split.
  - rewrite lookup_delete_ne by discriminate. apply lookup_delete_eq.
  - apply lookup_delete_eq.
Qed.

Lemma no_temporaries_unbound (r : Repl) :
  no_temporaries r -> temporaries_unbound (dom (locals r)).
Proof.
  intros [H1 H2]. split; apply not_elem_of_dom; assumption.
Qed.

Section KeepsUnbound.

Hypothesis Hkeeps : dispatch_keeps_unbound E.

Lemma process_event_without_temporaries e (r : Repl) :
  no_temporaries r ->
  no_temporaries (process_event E e r).2
  /\ dispatches_without_temporaries r (process_event E e r).2.
Proof.
  intros Hinv. destruct (process_event_effect e r) as (new & T & Hcase).
  destruct Hcase as [(_ & D & L) | (_ & D & L)].
  - split.
    + unfold no_temporaries. rewrite L. exact Hinv.
    + exists new. split; [exact T|]. rewrite D. constructor.
  - split.
    + unfold no_temporaries. rewrite L. destruct Hinv as [H1 H2].
      split; apply Hkeeps; auto.
    + exists new. split; [exact T|]. rewrite D.
      constructor; [apply no_temporaries_unbound; exact Hinv | constructor].
Qed.

Lemma warm_up_without_temporaries (r : Repl) :
  dispatches_without_temporaries r (warm_up E r).2
  /\ ((warm_up E r).1 = Ok tt -> no_temporaries (warm_up E r).2).
Proof.
  rewrite warm_up_cases. destruct (after_injection_record r) as [T _].
  set (r3 := after_injection E r) in *.
  assert (Hsame : forall r' : Repl, trace r' = trace r ->
                    dispatches_without_temporaries r r').
  { intros r' T'. exists []. rewrite T', app_nil_r. split; [reflexivity | constructor]. }
  destruct (locals r3 !! "_repl"%string); [|split; [apply Hsame; exact T | discriminate]].
  destruct (delete "_repl"%string (locals r3) !! "_Helper"%string);
    [|split; [apply Hsame; exact T | discriminate]].
  destruct (process_event_without_temporaries (Structured RunStartupFileEvent)
              _ (deleted_no_temporaries r3)) as [HI HR].
  split; [|intros _; exact HI].
  eapply without_temporaries_trans; [|exact HR]. apply Hsame. exact T.
Qed.

Lemma mainloop_without_temporaries paste fuel steps rounds (r : Repl) :
  dispatches_without_temporaries r (mainloop E true paste fuel steps rounds r).2.
Proof.
  apply (mainloop_preserves E dispatches_without_temporaries no_temporaries).
  - apply without_temporaries_refl.
  - apply without_temporaries_trans.
  - intros w r0 HI. split; [exact HI|].
    exists []. cbn [set_world trace]. rewrite app_nil_r. split; [reflexivity | constructor].
  - intros e r0 HI. apply process_event_without_temporaries. exact HI.
  - apply warm_up_without_temporaries.
Qed.

End KeepsUnbound.

(** C10. In the warm-up of an interactive session the two [del] statements
    come after the binding of [help] and in front of the start-up event:
    either one of them raises [KeyError] and nothing is dispatched, or the
    start-up event is dispatched with the names that the injections left
    bound, without [_repl] and [_Helper]. The driver binds neither name
    again: when no dispatch binds one of them, neither is bound at any
    dispatch of the main loop, be it the start-up event, the bootstrap
    paste or an event from the coalescer. *)
Theorem warm_up_deletes_temporaries :
  (forall (r : Repl),
     ((exists name, (warm_up E r).1 = Raise (KeyError name))
      /\ dispatch_namespaces (new_calls r (warm_up E r).2) = [])
     \/ dispatch_namespaces (new_calls r (warm_up E r).2)
        = [dom (locals (after_injection E r)) ∖ {[ "_repl"%string; "_Helper"%string ]}])
  /\ (dispatch_keeps_unbound E ->
      forall paste fuel steps rounds (r : Repl),
        Forall temporaries_unbound
          (dispatch_namespaces
             (new_calls r (mainloop E true paste fuel steps rounds r).2))).
Proof.
  split.
  - intros r. rewrite warm_up_cases. destruct (after_injection_record r) as [T _].
    set (r3 := after_injection E r) in *.
    assert (Hnone : forall r' : Repl, trace r' = trace r ->
                      dispatch_namespaces (new_calls r r') = []).
    { intros r' T'. rewrite (new_calls_app r r' []); [reflexivity|].
      rewrite T', app_nil_r. reflexivity. }
    destruct (locals r3 !! "_repl"%string);
      [|left; split; [eexists; reflexivity | apply Hnone; exact T]].
    destruct (delete "_repl"%string (locals r3) !! "_Helper"%string);
      [|left; split; [eexists; reflexivity | apply Hnone; exact T]].
    right.
    set (r5 := set_locals (delete "_Helper"%string (delete "_repl"%string (locals r3))) r3).
    destruct (process_event_effect (Structured RunStartupFileEvent) r5)
      as (new & T5 & [(Habs & _) | (_ & D & _)]); [discriminate|].
    rewrite (new_calls_app r _ new); [|rewrite T5; unfold r5; cbn; rewrite T; reflexivity].
    rewrite D. f_equal. unfold r5. cbn [set_locals locals].
    rewrite !dom_delete_L. apply set_eq. intros name.
    rewrite !elem_of_difference, elem_of_union, !elem_of_singleton. tauto.
  - intros Hkeeps paste fuel steps rounds r.
    destruct (mainloop_without_temporaries Hkeeps paste fuel steps rounds r)
      as (new & T & F).
    rewrite (new_calls_app r _ new T). exact F.
Qed.

End DriverInvariants.

(** ** The file-watch collaborator without [watchdog] *)

Section FilewatchFallback.

Import Filewatch.

Variable SUFFIXES : list string.
Variable abspath : string -> string.
Variable dirname : string -> string.
Variable Callback : Type.

(** C9. When [watchdog] cannot be imported, the construction raises nothing
    and returns [None] whatever its arguments are; [None] has no
    [track_module], [activate], [deactivate] or [reset], so each of these
    calls on the result raises [AttributeError]; under a test of the
    result, which is false for [None], the calls are skipped and nothing
    fails. With [watchdog], tracking a module on a handler that is not
    activated only remembers the path. *)
Theorem fallback_handler_is_None :
  (forall paths (on_change : Callback),
     ModuleChangedEventHandler SUFFIXES abspath dirname false Callback paths on_change
     = Ok NoneValue)
  /\ (forall m,
        call SUFFIXES abspath dirname NoneValue m = Raise (AttributeError (method_name m)))
  /\ (forall m, guarded_call SUFFIXES abspath dirname NoneValue m = Ok NoneValue)
  /\ (forall paths (on_change : Callback) path,
        exists w,
          ModuleChangedEventHandler SUFFIXES abspath dirname true Callback paths on_change
          = Ok (Instance w)
          /\ activated w = false
          /\ call SUFFIXES abspath dirname (Instance w) (call_track_module path)
             = Ok (Instance (_add_module_later path w))).
Proof.
  split; [reflexivity|]. split; [reflexivity|]. split; [reflexivity|].
  intros paths on_change path. exists (init SUFFIXES abspath dirname paths).
  assert (Hact : activated (init SUFFIXES abspath dirname paths) = false).
  { unfold init.
    assert (Hfold : forall ps w, activated w = false ->
              activated (foldl (fun acc p => _add_module SUFFIXES abspath dirname p acc) w ps)
              = false).
    { induction ps as [|p ps IH]; intros w Hw; [exact Hw|]. simpl. apply IH. exact Hw. }
    apply Hfold. reflexivity. }
  split; [reflexivity|]. split; [exact Hact|].
  unfold call, track_module. rewrite Hact. reflexivity.
Qed.

End FilewatchFallback.

(** ** The claims at concrete inputs *)

Section ConcreteInputs.

Import Preprocess Coalescer Driver DriverClaims Filewatch.

Open Scope string_scope.

(** The examples of the specification for [desugar]. *)
Example desugar_foo_doc :
  desugar example_parse example_unparse (py "foo??")
  = Ok (py "print(foo.__doc__ or " ++ [dquote] ++ py "'foo' has no docstring"
          ++ [dquote] ++ py ")")%list.
Proof. reflexivity. Qed.

Example desugar_invalid_syntax :
  desugar example_parse example_unparse (py "foo = ??")
  = Ok (py "print('Unable to find docs (invalid syntax)')").
Proof. reflexivity. Qed.

Example indent_empty_lines_block :
  indent_empty_lines
    (py "if x:" ++ [nl] ++ py "    a" ++ [nl] ++ [nl] ++ py "    b" ++ [nl])%list tt
  = (py "if x:" ++ [nl] ++ py "    a" ++ [nl] ++ py "    " ++ [nl] ++ py "    b" ++ [nl])%list.
Proof. reflexivity. Qed.

Example indent_empty_lines_empty_text : indent_empty_lines (py "") tt = [nl].
Proof. reflexivity. Qed.

(** The line [a!b!c] is split at its last [!]. *)
Example desugar_last_bang :
  exists left_ right_,
    py "a!b!c" = (left_ ++ bang :: right_)%list /\ sep_free bang right_
    /\ desugar example_parse example_unparse (py "a!b!c")
       = Ok (right_ ++ py "(" ++ left_ ++ py ")")%list.
Proof.
  exact (desugar_pipe example_parse example_unparse (py "a!b!c") eq_refl eq_refl).
Qed.

(** C5 at a line with a null character in front of [??]: the parser
    raises [ValueError], which is no [SyntaxError], and so does
    [desugar]. *)
Lemma desugar_spec_witness :
  example_parse (dropwhile is_space (py "a" ++ [nul])%list) = ParseRaises ValueError
  /\ (forall exc, ValueError <> DesugaringException exc)
  /\ desugar example_parse example_unparse ((py "a" ++ [nul]) ++ py "??")%list
     = Raise ValueError.
Proof.
  assert (Hne : forall exc, ValueError <> DesugaringException exc) by discriminate.
  split; [reflexivity|]. split; [exact Hne|].
  exact (proj1 (proj2 (proj2 (proj2 (proj2 (proj2
           (desugar_spec example_parse example_unparse))))))
           (py "a" ++ [nul])%list ValueError eq_refl Hne).
Defined.


(** C2 at a run of two key presses that a structured event ends. *)
Lemma coalescer_threshold_rule_witness :
  (Z.of_nat (length ["a"; "b"]) < 3)%Z
  /\ sends (list Raw) script_send 3 5 [None; Some 0%Z] combined_events
       [Keystroke "a"; Keystroke "b"; Structured ReloadEvent; Keystroke "c"]
     = Some ([Keystroke "a"; Keystroke "b"], mkGen AtDrain [], [Keystroke "c"]).
Proof.
  split; [reflexivity|].
  refine (proj1 (coalescer_threshold_rule (list Raw) script_send 3 combined_events
                   [Keystroke "a"; Keystroke "b"; Structured ReloadEvent; Keystroke "c"]
                   [Keystroke "b"; Structured ReloadEvent; Keystroke "c"]
                   [Keystroke "c"] None "a" ["b"] (Structured ReloadEvent) 5
                   (or_introl eq_refl) eq_refl _ _) _ [Some 0%Z] eq_refl).
  - apply (probes_script ["b"] [Structured ReloadEvent; Keystroke "c"]). reflexivity.
  - simpl. lia.
  - reflexivity.
Defined.


(** The example collaborators leave [scroll_offset] to the driver. *)
Lemma example_scroll_offset_owned (startup_assigns : option string) :
  scroll_offset_owned_by_driver (example_externals startup_assigns).
Proof.
  split; [|reflexivity].
  intros e so ns w. cbn [base_process_event example_externals].
  destruct e as [ev| |k]; [destruct ev| |]; cbn; try reflexivity.
  - destruct startup_assigns; reflexivity.
  - destruct (String.eqb k "<Ctrl-d>"); reflexivity.
Qed.


(** The example dispatch without a start-up assignment binds no name. *)
Lemma example_dispatch_keeps_unbound :
  dispatch_keeps_unbound (example_externals None).
Proof.
  intros e so ns w name _ Hname. cbn [base_process_event example_externals].
  destruct e as [ev| |k]; [destruct ev| |]; cbn; try exact Hname.
  destruct (String.eqb k "<Ctrl-d>"); exact Hname.
Qed.

(** C10 at a session with a bootstrap paste and two key presses. *)
Lemma warm_up_deletes_temporaries_witness :
  Forall temporaries_unbound
    (dispatch_namespaces
       (new_calls (example_repl [Keystroke "a"; Keystroke "<Ctrl-d>"])
          (mainloop (example_externals None) true (Some (PasteEvent ["x"])) 5 2 3
             (example_repl [Keystroke "a"; Keystroke "<Ctrl-d>"])).2)).
Proof.
  exact (proj2 (warm_up_deletes_temporaries (example_externals None))
           example_dispatch_keeps_unbound (Some (PasteEvent ["x"])) 5 2 3
           (example_repl [Keystroke "a"; Keystroke "<Ctrl-d>"])).
Defined.


(** C9, as the specification states it, fails: without [watchdog] the
    handler is [None], and tracking a module on it raises. *)
Lemma fallback_calls_raise :
  ~ degrades_to_noop [".py"] id id false unit [] tt.
Proof.
  intros (h & Hh & Hnoop). injection Hh as <-.
  specialize (Hnoop (call_track_module "mod.py")
                (or_intror (ex_intro _ "mod.py" eq_refl))).
  discriminate.
Qed.

(** C10, as stated, fails: a start-up file that assigns [_repl] binds the
    name again, and the bootstrap paste is dispatched with it bound. *)
Lemma startup_file_rebinds_temporary :
  ~ Forall temporaries_unbound
      (dispatch_namespaces
         (new_calls (example_repl [])
            (mainloop (example_externals (Some "_repl")) true
               (Some (PasteEvent ["x"])) 5 0 0 (example_repl [])).2)).
Proof.
  intros H.
  assert (Hd : dispatch_namespaces
         (new_calls (example_repl [])
            (mainloop (example_externals (Some "_repl")) true
               (Some (PasteEvent ["x"])) 5 0 0 (example_repl [])).2)
          = [ {[ "help" ]} ; {[ "_repl"; "help" ]} ]).
  { vm_compute. reflexivity. }
  rewrite Hd in H. apply Forall_inv_tail in H. apply Forall_inv in H.
  destruct H as [H _]. apply H. set_solver.
Qed.

End ConcreteInputs.

(** ** More about the preprocessing pipeline *)

Section PreprocessMore.

Import Preprocess.

Local Abbreviation indent := indent_empty_lines_re_match.

(** A line that does not start with a tab. *)
Local Abbreviation no_leading_tab := (fun line : str => head line <> Some tab).

Lemma tabs_to_spaces_re_sub_no_leading_tab line :
  no_leading_tab (tabs_to_spaces_re_sub line).
Proof.
  destruct (leading_tab_run line) as (k & rest & -> & Hrest).
  rewrite tabs_to_spaces_re_sub_run by exact Hrest.
  destruct k as [|k]; [exact Hrest|]. simpl. discriminate.
Qed.

Lemma tabs_to_spaces_re_sub_id line :
  no_leading_tab line -> tabs_to_spaces_re_sub line = line.
Proof.
  intros H. apply (tabs_to_spaces_re_sub_run 0 line H).
Qed.

Lemma map_tabs_to_spaces_re_sub_id lines :
  Forall no_leading_tab lines -> map tabs_to_spaces_re_sub lines = lines.
Proof.
  induction 1 as [|l ls Hl Hls IH]; simpl; [reflexivity|].
  rewrite tabs_to_spaces_re_sub_id by exact Hl. rewrite IH. reflexivity.
Qed.

Lemma leading_tabs_to_spaces_id s :
  Forall no_leading_tab (split nl s) -> leading_tabs_to_spaces s = s.
Proof.
  intros H. unfold leading_tabs_to_spaces.
  rewrite map_tabs_to_spaces_re_sub_id by exact H. apply join_split.
Qed.

Lemma leading_tabs_to_spaces_lines s :
  Forall no_leading_tab (split nl (leading_tabs_to_spaces s)).
Proof.
  rewrite split_leading_tabs_to_spaces. apply Forall_map.
  apply Forall_forall. intros line _. apply tabs_to_spaces_re_sub_no_leading_tab.
Qed.

(** X2. Tab expansion keeps the number of lines, leaves no line that starts
    with a tab, changes nothing in a text that has no such line, and so
    changes nothing when it is applied again. *)
Theorem leading_tabs_to_spaces_normal_form (s : str) :
  length (split nl (leading_tabs_to_spaces s)) = length (split nl s)
  /\ Forall (fun line => head line <> Some tab) (split nl (leading_tabs_to_spaces s))
  /\ (Forall (fun line => head line <> Some tab) (split nl s) ->
      leading_tabs_to_spaces s = s)
  /\ leading_tabs_to_spaces (leading_tabs_to_spaces s) = leading_tabs_to_spaces s.
Proof.
  split; [rewrite split_leading_tabs_to_spaces; apply length_map|].
  split; [apply leading_tabs_to_spaces_lines|].
  split; [apply leading_tabs_to_spaces_id|].
  apply leading_tabs_to_spaces_id, leading_tabs_to_spaces_lines.
Qed.

Lemma repair_from_no_blank lines : forall p,
  Forall (fun line : str => line <> []) lines -> repair_from p lines = lines.
Proof.
  induction lines as [|l rest IH]; intros p Hall; [reflexivity|].
  inversion Hall as [|? ? Hl Hrest]; subst.
  rewrite repair_from_cons, repair_line_nonempty by exact Hl.
  rewrite IH by exact Hrest. reflexivity.
Qed.

(** A text from its lines and its final newline. *)
Lemma text_from_lines s :
  text_lines s <> [] ->
  s = join nl (text_lines s) ++ (if ends_with_newline s then [nl] else []).
Proof.
  unfold text_lines, ends_with_newline. intros Hne.
  destruct (pop_trailing_empty_spec (split nl s) (split_nonempty nl s))
    as [(L & HL & Hpop) | (l & _ & _ & Hpop)]; rewrite Hpop in *; cbn [fst snd] in *.
  - rewrite <- (join_split nl s) at 1. rewrite HL. apply join_snoc. exact Hne.
  - rewrite app_nil_r. symmetry. apply join_split.
Qed.

Lemma text_lines_nil s : text_lines s = [] -> s = [].
Proof.
  unfold text_lines. intros Hnil.
  destruct (pop_trailing_empty_spec (split nl s) (split_nonempty nl s))
    as [(L & HL & Hpop) | (l & Hlast & _ & Hpop)]; rewrite Hpop in Hnil; cbn [snd] in Hnil.
  - subst L. rewrite <- (join_split nl s), HL. reflexivity.
  - rewrite Hnil in Hlast. discriminate.
Qed.

(** X3. Indentation repair returns a text that has no empty line as it
    is; the empty text is the exception and becomes one newline. *)
Theorem indent_empty_lines_without_blank_lines {C} (compiler : C) :
  (forall s : str,
     s <> [] ->
     Forall (fun line : str => line <> []) (text_lines s) ->
     indent_empty_lines s compiler = s)
  /\ indent_empty_lines [] compiler = [nl].
Proof.
  split; [|reflexivity].
  intros s Hs Hall. rewrite indent_empty_lines_unfold.
  fold (text_lines s). fold (ends_with_newline s).
  unfold repair_lines. rewrite repair_from_no_blank by exact Hall.
  symmetry. apply text_from_lines. intros Hnil. apply Hs, text_lines_nil, Hnil.
Qed.

(** The lines of a repaired text. *)
Lemma split_indent_empty_lines {C} (s : str) (compiler : C) :
  text_lines s <> [] ->
  split nl (indent_empty_lines s compiler)
  = repair_lines (text_lines s) ++ (if ends_with_newline s then [[]] else []).
Proof.
  intros Hne. rewrite indent_empty_lines_unfold.
  fold (text_lines s). fold (ends_with_newline s).
  assert (Hfree : Forall (sep_free nl) (text_lines s)).
  { unfold text_lines. pose proof (split_sep_free nl s) as H.
    destruct (pop_trailing_empty_spec (split nl s) (split_nonempty nl s))
      as [(L & HL & Hpop) | (l & _ & _ & Hpop)]; rewrite Hpop; cbn [snd].
    - rewrite HL in H. apply Forall_app in H. apply H.
    - exact H. }
  assert (HRfree : Forall (sep_free nl) (repair_lines (text_lines s))).
  { apply repair_from_sep_free; [constructor | exact Hfree]. }
  assert (HRne : repair_lines (text_lines s) <> []).
  { intros E. apply (f_equal length) in E. unfold repair_lines in E.
    rewrite repair_from_length in E. destruct (text_lines s); [contradiction | discriminate]. }
  destruct (ends_with_newline s).
  - change [nl] with (nl :: []). rewrite <- join_snoc by exact HRne.
    apply split_join.
    + destruct (repair_lines (text_lines s)); discriminate.
    + apply Forall_app. split; [exact HRfree | repeat constructor].
  - rewrite !app_nil_r. apply split_join; assumption.
Qed.

Lemma takewhile_no_leading_tab (P : ascii -> bool) line :
  no_leading_tab line -> no_leading_tab (takewhile P line).
Proof.
  destruct line as [|a line]; simpl; [auto|]. destruct (P a); [auto | discriminate].
Qed.

Lemma repair_from_no_leading_tab lines : forall p,
  no_leading_tab p -> Forall no_leading_tab lines ->
  Forall no_leading_tab (repair_from p lines).
Proof.
  induction lines as [|l rest IH]; intros p Hp Hall; [constructor|].
  inversion Hall as [|? ? Hl Hrest]; subst. rewrite repair_from_cons.
  constructor; [|apply IH; assumption].
  destruct l as [|a l'].
  - rewrite repair_line_empty.
    destruct (min_by_len_cases (indent p) (indent (hd [] rest))) as [-> | ->];
      apply takewhile_no_leading_tab; [exact Hp|].
    destruct rest as [|n rest']; [discriminate|]. inversion Hrest; assumption.
  - rewrite repair_line_nonempty by discriminate. exact Hl.
Qed.

Lemma text_lines_no_leading_tab s :
  Forall no_leading_tab (split nl s) -> Forall no_leading_tab (text_lines s).
Proof.
  unfold text_lines. intros H.
  destruct (pop_trailing_empty_spec (split nl s) (split_nonempty nl s))
    as [(L & HL & Hpop) | (l & _ & _ & Hpop)]; rewrite Hpop; cbn [snd].
  - rewrite HL in H. apply Forall_app in H. apply H.
  - exact H.
Qed.

(** Indentation repair puts no tab at the start of a line. *)
Lemma indent_empty_lines_no_leading_tab {C} (s : str) (compiler : C) :
  Forall no_leading_tab (split nl s) ->
  Forall no_leading_tab (split nl (indent_empty_lines s compiler)).
Proof.
  intros H. destruct (text_lines s) as [|l0 L] eqn:EL.
  - rewrite indent_empty_lines_unfold. fold (text_lines s). fold (ends_with_newline s).
    rewrite EL. destruct (ends_with_newline s); repeat constructor; discriminate.
  - rewrite split_indent_empty_lines by (rewrite EL; discriminate).
    apply Forall_app. split.
    + apply repair_from_no_leading_tab; [discriminate|].
      apply text_lines_no_leading_tab. exact H.
    + destruct (ends_with_newline s); repeat constructor. discriminate.
Qed.

(** Repairing a repaired text changes nothing. *)
Lemma indent_empty_lines_twice {C} (s : str) (compiler : C) :
  indent_empty_lines (indent_empty_lines s compiler) compiler
  = indent_empty_lines s compiler.
Proof.
  rewrite (indent_empty_lines_unfold s).
  pose proof (split_sep_free nl s) as Hfree.
  destruct (pop_trailing_empty_spec (split nl s) (split_nonempty nl s))
    as [(L & HL & Hpop) | (l & Hlast & Hl & Hpop)]; rewrite Hpop; simpl fst; simpl snd.
  - apply (indent_empty_lines_idem_lines compiler true L); [|exact I].
    rewrite HL in Hfree. apply Forall_app in Hfree. apply Hfree.
  - apply (indent_empty_lines_idem_lines compiler false (split nl s)); [exact Hfree|].
    exists l. split; assumption.
Qed.

(** X1. The whole pipeline is idempotent: a text that went through
    [preprocess] goes through it again unchanged, because the repair adds
    no tab at the start of a line and is itself idempotent. *)
Theorem preprocess_idempotent {C} (s : str) (compiler : C) :
  preprocess (preprocess s compiler) compiler = preprocess s compiler.
Proof.
  unfold preprocess.
  rewrite (leading_tabs_to_spaces_id (indent_empty_lines (leading_tabs_to_spaces s) compiler)).
  - apply indent_empty_lines_twice.
  - apply indent_empty_lines_no_leading_tab, leading_tabs_to_spaces_lines.
Qed.

(** The parts of a text around what [strip] keeps. *)
Lemma strip_decompose (P : ascii -> bool) s :
  exists pre post,
    s = pre ++ strip P s ++ post /\ forallb P pre = true /\ forallb P post = true.
Proof.
  assert (Htw : forall l, forallb P (takewhile P l) = true).
  { induction l as [|a l IH]; simpl; [reflexivity|].
    destruct (P a) eqn:E; simpl; [rewrite E; exact IH | reflexivity]. }
  exists (takewhile P s), (rev (takewhile P (rev (dropwhile P s)))).
  split; [|split; [apply Htw | apply forallb_rev, Htw]].
  unfold strip. rewrite <- rev_app_distr, takewhile_dropwhile, rev_involutive.
  symmetry. apply takewhile_dropwhile.
Qed.

Lemma desugar_unchanged ast_parse ast_unparse source :
  endswith source (py "??") = false ->
  (forall l r, source = l ++ bang :: r -> forallb is_ascii_letter r = false) ->
  desugar ast_parse ast_unparse source = Ok source.
Proof.
  intros Hqq Hno. unfold desugar. rewrite Hqq.
  destruct (endswith (strip is_ascii_letter source) (py "!")) eqn:Hbang; [|reflexivity].
  exfalso. apply endswith_inv in Hbang as [b Hb].
  destruct (strip_decompose is_ascii_letter source) as (pre & post & Hs & _ & Hpost).
  rewrite Hb in Hs.
  assert (Hsplit : source = (pre ++ b) ++ bang :: post).
  { rewrite Hs at 1. rewrite <- !app_assoc. reflexivity. }
  rewrite (Hno _ _ Hsplit) in Hpost. discriminate.
Qed.

(** X4. A source that does not end in [??] is returned unchanged exactly
    when it is not of the form [left!right] with a right part made of
    letters only; comparisons such as [x != y] and text with [!] inside a
    string stay as they are. *)
Theorem desugar_unchanged_iff ast_parse ast_unparse (source : str) :
  endswith source (py "??") = false ->
  (desugar ast_parse ast_unparse source = Ok source
   <-> forall l r, source = l ++ bang :: r -> forallb is_ascii_letter r = false).
Proof.
  intros Hqq. split.
  - intros Hd l r Hs. destruct (forallb is_ascii_letter r) eqn:Hr; [|reflexivity].
    exfalso. rewrite Hs in Hd. rewrite (desugar_pipe_letters _ _ l r Hr) in Hd.
    injection Hd as Hd. apply (f_equal length) in Hd.
    rewrite !length_app in Hd. simpl in Hd. rewrite length_app in Hd.
    simpl in Hd. lia.
  - apply desugar_unchanged. exact Hqq.
Qed.

End PreprocessMore.

(** ** More about the event coalescer *)

Section CoalescerScriptRuns.

Import Coalescer CoalescerRuns.

Variable paste_threshold : Z.

Local Abbreviation send := (send (list Raw) script_send paste_threshold).
Local Abbreviation sends := (sends (list Raw) script_send paste_threshold).

(** A script starts with a run of key presses, followed by a value that is
    none or by the end. *)
Lemma script_run script :
  exists ks rest,
    script = map Keystroke ks ++ rest /\ is_keystroke (stopper rest) = false.
Proof.
  induction script as [|u script IH].
  - exists [], []. split; reflexivity.
  - destruct u as [ev| |k].
    + exists [], (Structured ev :: script). split; reflexivity.
    + exists [], (Timeout :: script). split; reflexivity.
    + destruct IH as (ks & rest & -> & Hstop). exists (k :: ks), rest.
      split; [reflexivity | exact Hstop].
Qed.

Lemma keys_of_app us vs : keys_of (us ++ vs) = keys_of us ++ keys_of vs.
Proof. unfold keys_of. apply flat_map_app. Qed.

Lemma keys_of_keystrokes ks : keys_of (map Keystroke ks) = ks.
Proof. induction ks as [|k ks IH]; simpl; [reflexivity|]. f_equal. exact IH. Qed.

(** The value that ends a run carries no key press. *)
Lemma keys_of_tl_rest rest :
  no_paste rest -> is_keystroke (stopper rest) = false ->
  keys_of (tl rest) = keys_of rest.
Proof.
  intros Hnp Hstop. destruct rest as [|u rest]; [reflexivity|].
  inversion Hnp as [|? ? Hu _]; subst. simpl in Hstop.
  destruct u as [ev| |k]; [destruct ev; try reflexivity; discriminate | reflexivity | discriminate].
Qed.

Lemma no_paste_tl rest : no_paste rest -> no_paste (tl rest).
Proof. intros H. destruct rest; [exact H|]. inversion H; assumption. Qed.

(** One [send] on a script, with everything that the following facts
    need. *)
Lemma send_script_step fuel t g script :
  no_paste script -> reachable g -> length script < fuel ->
  exists y g' script',
    send fuel t g script = Some (y, g', script')
    /\ raw_keys y ++ pending g' ++ keys_of script' = pending g ++ keys_of script
    /\ paste_reaches paste_threshold y
    /\ no_paste script' /\ reachable g' /\ length script' <= length script.
Proof.
  intros Hnp Hreach Hfuel.
  assert (Hidle : forall g0, idle g0 -> pending g0 = [] ->
    exists y g' script',
      send fuel t g0 script = Some (y, g', script')
      /\ raw_keys y ++ pending g' ++ keys_of script' = pending g0 ++ keys_of script
      /\ paste_reaches paste_threshold y
      /\ no_paste script' /\ reachable g' /\ length script' <= length script).
  { intros g0 Hg0 Hpend. rewrite Hpend.
    rewrite (send_idle (list Raw) script_send paste_threshold fuel t g0 script Hg0).
    destruct script as [|u script'].
    - destruct fuel as [|fuel]; [lia|].
      exists Timeout, (mkGen AtYield []), [].
      split; [reflexivity|]. split; [reflexivity|]. split; [exact I|].
      split; [constructor|]. split; [intros _; reflexivity | reflexivity].
    - destruct u as [ev| |k].
      + destruct fuel as [|fuel]; [simpl in Hfuel; lia|].
        inversion Hnp as [|? ? Hu Hnp']; subst.
        assert (Hev : raw_keys (Structured ev) = [] /\ paste_reaches paste_threshold (Structured ev)).
        { destruct ev; try (split; [reflexivity | exact I]). discriminate Hu. }
        exists (Structured ev), (mkGen AtYield []), script'.
        split; [reflexivity|]. split.
        { unfold keys_of. cbn [flat_map]. fold (keys_of script').
          rewrite (proj1 Hev). reflexivity. }
        split; [exact (proj2 Hev)|]. split; [exact Hnp'|].
        split; [intros _; reflexivity | simpl; lia].
      + destruct fuel as [|fuel]; [simpl in Hfuel; lia|].
        inversion Hnp as [|? ? Hu Hnp']; subst.
        exists Timeout, (mkGen AtYield []), script'.
        split; [reflexivity|]. split; [reflexivity|]. split; [exact I|].
        split; [exact Hnp'|]. split; [intros _; reflexivity | simpl; lia].
      + inversion Hnp as [|? ? Hu Hnp']; subst.
        destruct (script_run script') as (ks & rest & -> & Hstop).
        assert (Hnprest : no_paste rest).
        { apply Forall_app in Hnp'. apply Hnp'. }
        assert (Hlen : length (k :: ks) < fuel).
        { simpl in Hfuel |- *. rewrite length_app, length_map in Hfuel. lia. }
        rewrite (loop_run (list Raw) script_send paste_threshold
                   (Keystroke k :: map Keystroke ks ++ rest) t k
                   (map Keystroke ks ++ rest) ks (stopper rest) (tl rest) fuel
                   eq_refl (probes_script ks rest Hstop) Hlen).
        assert (Hkeys : keys_of (Keystroke k :: map Keystroke ks ++ rest)
                        = k :: ks ++ keys_of (tl rest)).
        { change (Keystroke k :: map Keystroke ks ++ rest)
            with (map Keystroke (k :: ks) ++ rest).
          rewrite keys_of_app, keys_of_keystrokes, keys_of_tl_rest by assumption.
          reflexivity. }
        assert (Hshort : length (tl rest) <= length (Keystroke k :: map Keystroke ks ++ rest)).
        { simpl. rewrite length_app. destruct rest; simpl; lia. }
        destruct (Z.leb_spec paste_threshold (Z.of_nat (length (k :: ks)))) as [Hge | Hlt].
        * exists (Structured (PasteEvent (k :: ks))), (mkGen AtYield []), (tl rest).
          split; [reflexivity|]. split.
          { rewrite Hkeys. cbn [raw_keys pending pc queue app]. reflexivity. }
          split; [split; [exact Hge | discriminate]|].
          split; [apply no_paste_tl; exact Hnprest|].
          split; [intros _; reflexivity | exact Hshort].
        * exists (Keystroke k), (mkGen AtDrain ks), (tl rest).
          split; [reflexivity|]. split.
          { rewrite Hkeys. reflexivity. }
          split; [exact I|].
          split; [apply no_paste_tl; exact Hnprest|].
          split; [intros Hpc; discriminate | exact Hshort]. }
  destruct g as [pc0 q]. destruct pc0.
  - apply Hidle; [left; reflexivity | reflexivity].
  - specialize (Hreach eq_refl). cbn in Hreach. subst q.
    apply Hidle; [right; reflexivity | reflexivity].
  - destruct q as [|k0 q'].
    + apply Hidle; [right; reflexivity | reflexivity].
    + exists (Keystroke k0), (mkGen AtDrain q'), script.
      split; [reflexivity|]. split; [reflexivity|]. split; [exact I|].
      split; [exact Hnp|]. split; [intros Hpc; discriminate | reflexivity].
Qed.

(** X5. On a scripted input source that makes no paste events, with fuel
    above the length of the script, every sequence of [send]s succeeds, and
    no key press is lost, doubled or moved: the key presses yielded so far,
    alone or inside paste events, followed by those the generator holds and
    those left in the script, are the key presses that were held and in the
    script at the start, in the same order. *)
Theorem coalescer_keeps_key_presses (fuel : nat) (ts : list timeout_t) (g : Gen)
    (script : list Raw) :
  no_paste script -> reachable g -> length script < fuel ->
  exists ys g' script',
    sends fuel ts g script = Some (ys, g', script')
    /\ keys_of ys ++ pending g' ++ keys_of script' = pending g ++ keys_of script.
Proof.
  revert g script. induction ts as [|t ts IH]; intros g script Hnp Hreach Hfuel.
  - exists [], g, script. split; reflexivity.
  - destruct (send_script_step fuel t g script Hnp Hreach Hfuel)
      as (y & g1 & s1 & Hsend & Hkeys & _ & Hnp1 & Hreach1 & Hlen1).
    destruct (IH g1 s1 Hnp1 Hreach1 ltac:(lia)) as (ys & g2 & s2 & Hsends & Hkeys2).
    exists (y :: ys), g2, s2. cbn [Coalescer.sends]. rewrite Hsend, Hsends.
    split; [reflexivity|].
    change (keys_of (y :: ys)) with (raw_keys y ++ keys_of ys).
    rewrite <- app_assoc, Hkeys2, <- Hkeys. reflexivity.
Qed.

(** X6. On a scripted input source that makes no paste events, every paste
    event that the generator yields has at least [paste_threshold] key
    presses and is not empty. *)
Theorem coalescer_paste_reaches_threshold (fuel : nat) (ts : list timeout_t)
    (g : Gen) (script : list Raw) :
  no_paste script -> reachable g -> length script < fuel ->
  exists ys g' script',
    sends fuel ts g script = Some (ys, g', script')
    /\ Forall (paste_reaches paste_threshold) ys.
Proof.
  revert g script. induction ts as [|t ts IH]; intros g script Hnp Hreach Hfuel.
  - exists [], g, script. split; [reflexivity | constructor].
  - destruct (send_script_step fuel t g script Hnp Hreach Hfuel)
      as (y & g1 & s1 & Hsend & _ & Hy & Hnp1 & Hreach1 & Hlen1).
    destruct (IH g1 s1 Hnp1 Hreach1 ltac:(lia)) as (ys & g2 & s2 & Hsends & Hys).
    exists (y :: ys), g2, s2. cbn [Coalescer.sends]. rewrite Hsend, Hsends.
    split; [reflexivity | constructor; assumption].
Qed.

End CoalescerScriptRuns.

Section CoalescerTimeouts.

Import Coalescer CoalescerRuns.

Variable P : Type.
Variable provider_send : timeout_t -> P -> Raw * P.
Variable paste_threshold : Z.

Local Abbreviation lsend := (logged_send P provider_send).

(** The probing loop only makes non-blocking reads and only adds to the
    queue. *)
Lemma probe_logged fuel : forall q p log q' u p' log',
  probe (P * list timeout_t) lsend fuel q (p, log) = Some (q', u, (p', log')) ->
  exists ks n, q' = q ++ ks /\ log' = log ++ replicate n (Some 0%Z).
Proof.
  induction fuel as [|fuel IH]; intros q p log q' u p' log' H; [discriminate|].
  cbn [probe] in H. unfold logged_send in H at 1. cbn [fst snd] in H.
  destruct (provider_send (Some 0%Z) p) as [e p1].
  destruct e as [ev| |k].
  - injection H as <- <- <- <-. exists [], 1. rewrite app_nil_r. auto.
  - injection H as <- <- <- <-. exists [], 1. rewrite app_nil_r. auto.
  - apply IH in H as (ks & n & -> & ->). exists (k :: ks), (S n).
    rewrite <- !app_assoc. auto.
Qed.

Lemma loop_logged fuel : forall t p log y g' p' log',
  _combined_events (P * list timeout_t) lsend paste_threshold fuel t [] (p, log)
  = Some (y, g', (p', log')) ->
  exists n, log' = log ++ t :: replicate n (Some 0%Z).
Proof.
  induction fuel as [|fuel IH]; intros t p log y g' p' log' H; [discriminate|].
  cbn [_combined_events] in H. unfold logged_send in H at 1. cbn [fst snd] in H.
  destruct (provider_send t p) as [e p1].
  destruct e as [ev| |k].
  - injection H as <- <- <- <-. exists 0. reflexivity.
  - injection H as <- <- <- <-. exists 0. reflexivity.
  - destruct (probe (P * list timeout_t) lsend (S fuel) ([] ++ [k]) (p1, log ++ [t]))
      as [[[q' u] [p2 log2]]|] eqn:Hprobe; [|discriminate].
    apply probe_logged in Hprobe as (ks & n & -> & ->).
    exists n.
    destruct (paste_threshold <=? Z.of_nat (length (([] ++ [k]) ++ ks)))%Z.
    + injection H as <- <- <- <-. rewrite <- app_assoc. reflexivity.
    + cbn [app] in H. injection H as <- <- <- <-. rewrite <- app_assoc. reflexivity.
Qed.

(** X7. How the generator reads its provider. A queued key press is yielded
    without any read. Otherwise a [send(timeout)] passes the caller's
    timeout to the provider exactly once, in the first read, and every
    further read of the same [send] is non-blocking, with timeout 0. *)
Theorem coalescer_reads_provider (fuel : nat) (t : timeout_t) (g : Gen)
    (p p' : P) (log log' : list timeout_t) (y : Raw) (g' : Gen) :
  reachable g ->
  send (P * list timeout_t) lsend paste_threshold fuel t g (p, log)
  = Some (y, g', (p', log')) ->
  (pending g <> [] -> log' = log /\ p' = p /\ [y] = map Keystroke (take 1 (pending g)))
  /\ (pending g = [] -> exists n, log' = log ++ t :: replicate n (Some 0%Z)).
Proof.
  intros Hreach H. destruct g as [pc0 q]. unfold Coalescer.send in H. cbn [pc queue] in H.
  destruct pc0; cbn [pending pc queue].
  - split; [intros Hne; contradiction|]. intros _. eapply loop_logged; exact H.
  - specialize (Hreach eq_refl). cbn in Hreach. subst q.
    split; [intros Hne; contradiction|]. intros _. eapply loop_logged; exact H.
  - destruct q as [|k0 q'].
    + split; [intros Hne; contradiction|]. intros _. eapply loop_logged; exact H.
    + injection H as <- <- <- <-. split; [auto | discriminate].
Qed.

End CoalescerTimeouts.

(** ** More about the driver *)

Section DriverMore.

Import Driver DriverClaims DriverRuns.

Context {X Value Frame : Type}.
Variable E : Externals X Value Frame.

Local Abbreviation Repl := (Repl X Value).


(** An exit exception out of [process_event] comes with its frame. *)
Lemma process_event_raises e (r r' : Repl) err :
  process_event E e r = (Raise err, r') ->
  is_termination err = true ->
  exists scrolled,
    trace r' = trace r ++ [ADispatch e (dom (locals r));
                           APaint (ExitArgs true (isinstance_SystemExitFromCodeGreenlet err));
                           ARender scrolled].
Proof.
  intros H Hterm.
  assert (Hd : dispatch_then_paint E e r = (Raise err, r') ->
               exists scrolled,
                 trace r' = trace r ++ [ADispatch e (dom (locals r));
                   APaint (ExitArgs true (isinstance_SystemExitFromCodeGreenlet err));
                   ARender scrolled]).
  { unfold dispatch_then_paint.
    destruct (base_process_event E e (scroll_offset r) (locals r) (world r))
      as [[[out so] ns] w].
    destruct out as [u|err0]; [discriminate|].
    destruct (is_termination err0) eqn:Hterm0.
    - intros [= -> <-].
      destruct (paint_and_render_spec E
                  (ExitArgs true (isinstance_SystemExitFromCodeGreenlet err))
                  (log (ADispatch e (dom (locals r)))
                     (set_scroll_offset so (set_world w (set_locals ns r)))))
        as (z & T & _). exists z. rewrite T. cbn. rewrite <- app_assoc. reflexivity.
    - intros [= -> <-]. rewrite Hterm in Hterm0. discriminate. }
  destruct e; [apply Hd; exact H | discriminate | apply Hd; exact H].
Qed.

Lemma process_event_extends e (r : Repl) :
  exists new, trace (process_event E e r).2 = trace r ++ new.
Proof.
  destruct (process_event_effect E e r) as (new & T & _). exists new. exact T.
Qed.

Lemma ends_with_exit_frame_extend (r r1 r' : Repl) new err :
  trace r1 = trace r ++ new ->
  ends_with_exit_frame r1 r' err -> ends_with_exit_frame r r' err.
Proof.
  intros T (pre & e & b & z & T'). exists (new ++ pre), e, b, z.
  rewrite T', T, <- !app_assoc. reflexivity.
Qed.

Lemma process_event_ends e (r r' : Repl) err :
  process_event E e r = (Raise err, r') -> is_termination err = true ->
  ends_with_exit_frame r r' err.
Proof.
  intros H Hterm. destruct (process_event_raises e r r' err H Hterm) as (z & T).
  exists [], e, (dom (locals r)), z. exact T.
Qed.

Lemma scan_loop_ends fuel steps : forall inputs (r : Repl) out inputs' r',
  scan_loop E fuel steps inputs r = (out, inputs', r') ->
  (exists new, trace r' = trace r ++ new)
  /\ (forall err, out = Raised err -> is_termination err = true ->
        ends_with_exit_frame r r' err).
Proof.
  induction steps as [|steps IH]; intros inputs r out inputs' r' H.
  - injection H as <- <- <-. split; [exists []; rewrite app_nil_r; reflexivity | discriminate].
  - cbn [scan_loop] in H.
    destruct (Coalescer.send X (input_send E) Coalescer.default_paste_threshold
                fuel (Some 0%Z) inputs (world r)) as [[[e inputs1] w]|].
    2:{ injection H as <- <- <-.
        split; [exists []; rewrite app_nil_r; reflexivity | discriminate]. }
    assert (Hskip : scan_loop E fuel steps inputs1 (set_world w r) = (out, inputs', r') ->
              (exists new, trace r' = trace r ++ new)
              /\ (forall err, out = Raised err -> is_termination err = true ->
                    ends_with_exit_frame r r' err)).
    { intros Hs. exact (IH _ _ _ _ _ Hs). }
    assert (Hdisp : (match process_event E e (set_world w r) with
                     | (Ok _, r0) => scan_loop E fuel steps inputs1 r0
                     | (Raise err, r0) => (Raised err, inputs1, r0)
                     end) = (out, inputs', r') ->
              (exists new, trace r' = trace r ++ new)
              /\ (forall err, out = Raised err -> is_termination err = true ->
                    ends_with_exit_frame r r' err)).
    { intros Hm. destruct (process_event_extends e (set_world w r)) as (new & T).
      destruct (process_event E e (set_world w r)) as [[u|err0] r0] eqn:Hpe; cbn [snd] in T.
      - destruct (IH _ _ _ _ _ Hm) as [(new' & T') Hends]. split.
        + exists (new ++ new'). rewrite T', T, <- app_assoc. reflexivity.
        + intros err Ho Hterm. eapply ends_with_exit_frame_extend; [exact T|].
          apply Hends; assumption.
      - injection Hm as <- <- <-. split; [exists new; exact T|].
        intros err [= <-] Hterm.
        exact (process_event_ends e (set_world w r) r0 err0 Hpe Hterm). }
    destruct e; [apply Hdisp; exact H | apply Hskip; exact H | apply Hdisp; exact H].
Qed.

Lemma event_loop_ends fuel rounds : forall inputs (r : Repl) out inputs' r',
  event_loop E fuel rounds inputs r = (out, inputs', r') ->
  out <> Returned
  /\ (forall err, out = Raised err -> is_termination err = true ->
        ends_with_exit_frame r r' err).
Proof.
  induction rounds as [|rounds IH]; intros inputs r out inputs' r' H.
  - injection H as <- <- <-. split; discriminate.
  - cbn [event_loop] in H.
    destruct (Coalescer.send X (input_send E) Coalescer.default_paste_threshold
                fuel None inputs (world r)) as [[[e inputs1] w]|].
    2:{ injection H as <- <- <-. split; discriminate. }
    destruct (process_event_extends e (set_world w r)) as (new & T).
    destruct (process_event E e (set_world w r)) as [[u|err0] r0] eqn:Hpe; cbn [snd] in T.
    + destruct (IH _ _ _ _ _ H) as [Hne Hends]. split; [exact Hne|].
      intros err Ho Hterm. eapply ends_with_exit_frame_extend; [exact T|].
      apply Hends; assumption.
    + injection H as <- <- <-. split; [discriminate|].
      intros err [= <-] Hterm.
      exact (process_event_ends e (set_world w r) r0 err0 Hpe Hterm).
Qed.

Lemma warm_up_ends (r r' : Repl) err :
  warm_up E r = (Raise err, r') -> is_termination err = true ->
  ends_with_exit_frame r r' err.
Proof.
  rewrite warm_up_cases. destruct (after_injection_record E r) as [T _].
  destruct (locals (after_injection E r) !! "_repl"%string).
  2:{ intros [= <- <-]. discriminate. }
  destruct (delete "_repl"%string (locals (after_injection E r)) !! "_Helper"%string).
  2:{ intros [= <- <-]. discriminate. }
  intros H Hterm. apply process_event_ends in H; [|exact Hterm].
  eapply (ends_with_exit_frame_extend r _ r' []); [|exact H].
  cbn [set_locals trace]. rewrite T, app_nil_r. reflexivity.
Qed.

Lemma warm_up_extends (r : Repl) :
  exists new, trace (warm_up E r).2 = trace r ++ new.
Proof.
  rewrite warm_up_cases. destruct (after_injection_record E r) as [T _].
  assert (Hsame : exists new, trace (after_injection E r) = trace r ++ new).
  { exists []. rewrite T, app_nil_r. reflexivity. }
  destruct (locals (after_injection E r) !! "_repl"%string); [|exact Hsame].
  destruct (delete "_repl"%string (locals (after_injection E r)) !! "_Helper"%string);
    [|exact Hsame].
  destruct (process_event_extends (Structured RunStartupFileEvent)
              (set_locals
                 (delete "_Helper"%string
                    (delete "_repl"%string (locals (after_injection E r))))
                 (after_injection E r))) as (new & T').
  exists new. rewrite T'. cbn [set_locals trace]. rewrite T. reflexivity.
Qed.

Lemma mainloop_ends (interactive : bool) (paste : option Event)
    (fuel steps rounds : nat) (r : Repl) :
  (mainloop E interactive paste fuel steps rounds r).1 <> Returned
  /\ (forall err,
        (mainloop E interactive paste fuel steps rounds r).1 = Raised err ->
        is_termination err = true ->
        ends_with_exit_frame r (mainloop E interactive paste fuel steps rounds r).2 err).
Proof.
  unfold mainloop.
  assert (Hw : exists out r1,
             (if interactive then warm_up E r else (Ok tt, r)) = (out, r1)
             /\ (exists new, trace r1 = trace r ++ new)
             /\ (forall err, out = Raise err -> is_termination err = true ->
                   ends_with_exit_frame r r1 err)).
  { destruct interactive.
    - destruct (warm_up E r) as [out r1] eqn:Hwu. exists out, r1.
      split; [reflexivity|]. split.
      + destruct (warm_up_extends r) as (new & T). rewrite Hwu in T.
        exists new. exact T.
      + intros err -> Hterm. apply warm_up_ends; assumption.
    - exists (Ok tt), r. split; [reflexivity|].
      split; [exists []; rewrite app_nil_r; reflexivity | discriminate]. }
  destruct Hw as (out & r1 & -> & (n1 & T1) & Hends1).
  destruct out as [[]|err1].
  2:{ cbn [fst snd]. split; [discriminate|]. intros err [= <-]. apply Hends1. reflexivity. }
  assert (Hp : exists out r2,
             (match paste with
              | Some ev => process_event E (Structured ev) r1
              | None => (Ok tt, r1)
              end) = (out, r2)
             /\ (exists new, trace r2 = trace r1 ++ new)
             /\ (forall err, out = Raise err -> is_termination err = true ->
                   ends_with_exit_frame r1 r2 err)).
  { destruct paste as [ev|].
    - destruct (process_event E (Structured ev) r1) as [out r2] eqn:Hpe.
      exists out, r2. split; [reflexivity|]. split.
      + destruct (process_event_extends (Structured ev) r1) as (new & T).
        rewrite Hpe in T. exists new. exact T.
      + intros err -> Hterm. apply (process_event_ends (Structured ev)); assumption.
    - exists (Ok tt), r1. split; [reflexivity|].
      split; [exists []; rewrite app_nil_r; reflexivity | discriminate]. }
  destruct Hp as (out & r2 & -> & (n2 & T2) & Hends2).
  destruct out as [[]|err2].
  2:{ cbn [fst snd]. split; [discriminate|]. intros err [= <-] Hterm.
      eapply ends_with_exit_frame_extend; [exact T1|]. apply Hends2; auto. }
  destruct (process_event_extends Timeout r2) as (n3 & T3).
  destruct (process_event E Timeout r2) as [out r3] eqn:Hpe3. cbn [snd] in T3.
  assert (T13 : trace r3 = trace r ++ (n1 ++ n2 ++ n3)).
  { rewrite T3, T2, T1, <- !app_assoc. reflexivity. }
  destruct out as [[]|err3].
  2:{ cbn [fst snd]. split; [discriminate|]. intros err [= <-] Hterm.
      cbn [process_event] in Hpe3. discriminate. }
  destruct (scan_loop E fuel steps Coalescer.combined_events r3)
    as [[out4 inputs4] r4] eqn:Hscan.
  destruct (scan_loop_ends fuel steps _ _ _ _ _ Hscan) as [(n4 & T4) Hends4].
  destruct out4.
  - destruct (event_loop E fuel rounds inputs4 r4) as [[out5 inputs5] r5] eqn:Hev.
    destruct (event_loop_ends fuel rounds _ _ _ _ _ Hev) as [Hne Hends5].
    cbn [fst snd]. split; [exact Hne|]. intros err Ho Hterm.
    eapply (ends_with_exit_frame_extend r r4 r5 ((n1 ++ n2 ++ n3) ++ n4)).
    + rewrite T4, T13, <- !app_assoc. reflexivity.
    + apply Hends5; assumption.
  - cbn [fst snd]. split; [discriminate|]. intros err Ho Hterm.
    eapply ends_with_exit_frame_extend; [exact T13|]. apply Hends4; assumption.
  - cbn [fst snd]. split; [discriminate|]. intros err Ho. discriminate.
Qed.


(** X10. The warm-up when an injection failed. If [_Helper] is not bound
    after the two [runsource] calls (the import failed), an interactive
    [mainloop] ends with [KeyError] for [_Helper] in front of every dispatch
    and every paint, with [_repl] already deleted; if [_repl] itself is not
    bound any more, it ends with [KeyError] for [_repl] and deletes
    nothing. *)
Theorem mainloop_failed_injection (paste : option Event) (fuel steps rounds : nat)
    (r : Repl) :
  let r3 := after_injection E r in
  (is_Some (locals r3 !! "_repl"%string) ->
   locals r3 !! "_Helper"%string = None ->
   mainloop E true paste fuel steps rounds r
   = (Raised (KeyError "_Helper"), set_locals (delete "_repl"%string (locals r3)) r3)
   /\ trace (mainloop E true paste fuel steps rounds r).2 = trace r)
  /\ (locals r3 !! "_repl"%string = None ->
      mainloop E true paste fuel steps rounds r = (Raised (KeyError "_repl"), r3)
      /\ trace (mainloop E true paste fuel steps rounds r).2 = trace r).
Proof.
  intros r3. destruct (after_injection_record E r) as [T _]. fold r3 in T.
  unfold mainloop. rewrite warm_up_cases. fold r3. split.
  - intros [v Hv] Hh. rewrite Hv.
    rewrite lookup_delete_ne by discriminate. rewrite Hh. cbn [fst snd]. auto.
  - intros Hr. rewrite Hr. cbn [fst snd]. auto.
Qed.

End DriverMore.

(** ** More about the file-watch collaborator *)

Section FilewatchMore.

Import Filewatch FilewatchRuns.

Variable SUFFIXES : list string.
Variable abspath : string -> string.
Variable dirname : string -> string.

Local Abbreviation _add_module := (_add_module SUFFIXES abspath dirname).
Local Abbreviation track_module := (track_module SUFFIXES abspath dirname).
Local Abbreviation activate := (activate SUFFIXES abspath dirname).
Local Abbreviation init := (init SUFFIXES abspath dirname).
Local Abbreviation apply_method := (apply_method SUFFIXES abspath dirname).
Local Abbreviation run := (run SUFFIXES abspath dirname).

Lemma dir_mem_dir_add d0 d path dirs :
  dir_mem d0 (dir_add d path dirs) = String.eqb d d0 || dir_mem d0 dirs.
Proof.
  induction dirs as [|[k v] dirs IH]; simpl.
  - rewrite orb_false_r. reflexivity.
  - destruct (String.eqb k d) eqn:Ekd; simpl.
    + apply String.eqb_eq in Ekd. subst k.
      destruct (String.eqb d d0); reflexivity.
    + rewrite IH. destruct (String.eqb k d0), (String.eqb d d0); reflexivity.
Qed.

Lemma dir_mem_In d dirs : dir_mem d dirs = true <-> In d (map fst dirs).
Proof.
  unfold dir_mem. rewrite existsb_exists, in_map_iff. split.
  - intros (kv & Hin & Heq). apply String.eqb_eq in Heq. eauto.
  - intros (kv & Heq & Hin). exists kv. split; [exact Hin|]. apply String.eqb_eq. exact Heq.
Qed.

Lemma map_fst_dir_add d path dirs :
  map fst (dir_add d path dirs)
  = if dir_mem d dirs then map fst dirs else map fst dirs ++ [d].
Proof.
  induction dirs as [|[k v] dirs IH]; simpl; [reflexivity|].
  destruct (String.eqb k d) eqn:Ekd; simpl; [reflexivity|].
  rewrite IH. destruct (dir_mem d dirs); reflexivity.
Qed.

Lemma _add_module_watched path w :
  tracked_dirs_watched w -> tracked_dirs_watched (_add_module path w).
Proof.
  intros Hw d Hd. unfold Filewatch._add_module in *. cbn [dirs observer_watches] in *.
  set (d1 := dirname (strip_suffix SUFFIXES (abspath path))) in *.
  rewrite dir_mem_dir_add in Hd. apply orb_true_iff in Hd as [Heq | Hmem].
  - apply String.eqb_eq in Heq. subst d.
    destruct (dir_mem d1 (dirs w)) eqn:Em; [apply Hw; exact Em|].
    apply in_or_app. right. left. reflexivity.
  - destruct (dir_mem d1 (dirs w)); [apply Hw; exact Hmem|].
    apply in_or_app. left. apply Hw. exact Hmem.
Qed.

Lemma foldl_add_module_watched paths : forall w,
  tracked_dirs_watched w ->
  tracked_dirs_watched (foldl (fun acc p => _add_module p acc) w paths).
Proof.
  induction paths as [|p paths IH]; intros w Hw; [exact Hw|].
  simpl. apply IH, _add_module_watched, Hw.
Qed.

Lemma _add_module_keys_nodup path w :
  NoDup (map fst (dirs w)) -> NoDup (map fst (dirs (_add_module path w))).
Proof.
  intros Hnd. unfold Filewatch._add_module. cbn [dirs]. rewrite map_fst_dir_add.
  destruct (dir_mem (dirname (strip_suffix SUFFIXES (abspath path))) (dirs w)) eqn:Em;
    [exact Hnd|].
  apply NoDup_app. split; [exact Hnd|]. split; [|apply NoDup_singleton].
  intros x Hx Hx'. apply list_elem_of_In in Hx. apply list_elem_of_In in Hx'.
  destruct Hx' as [<- | []]. apply dir_mem_In in Hx. rewrite Hx in Em. discriminate.
Qed.

(** What a fold of [_add_module] leaves alone. *)
Lemma foldl_add_module_fields paths : forall w,
  let w' := foldl (fun acc p => _add_module p acc) w paths in
  activated w' = activated w /\ modules_to_add_later w' = modules_to_add_later w
  /\ started w' = started w /\ observer_running w' = observer_running w
  /\ old_dirs w' = old_dirs w
  /\ (NoDup (map fst (dirs w)) -> NoDup (map fst (dirs w'))).
Proof.
  induction paths as [|p paths IH]; intros w; [cbn; auto 10|].
  cbn [foldl]. destruct (IH (_add_module p w)) as (A & L & S & O & D & N).
  cbn zeta. rewrite A, L, S, O, D. repeat split; try reflexivity.
  intros Hnd. apply N, _add_module_keys_nodup, Hnd.
Qed.

Lemma init_consistent paths : consistent (init paths) /\ activated (init paths) = false.
Proof.
  unfold Filewatch.init.
  destruct (foldl_add_module_fields paths (mkWatcher [] [] [] false false false []))
    as (A & _ & _ & _ & _ & N).
  cbn zeta in *. cbn [activated dirs] in *. split; [|exact A].
  split; [rewrite A; discriminate|]. split; [rewrite A; discriminate|].
  apply N. constructor.
Qed.

Lemma activate_spec w :
  activated w = false ->
  exists w',
    activate w = Ok w'
    /\ activated w' = true /\ modules_to_add_later w' = [] /\ started w' = true
    /\ tracked_dirs_watched w'
    /\ (NoDup (map fst (dirs w)) -> NoDup (map fst (dirs w')))
    /\ (modules_to_add_later w = [] ->
        dirs w' = dirs w
        /\ observer_watches w' = observer_watches w ++ map fst (dirs w))
    /\ (started w = true -> observer_running w' = observer_running w).
Proof.
  intros Hact. unfold Filewatch.activate. cbv zeta.
  set (w1 := if started w then w
             else mkWatcher (dirs w) (modules_to_add_later w) (old_dirs w)
                            true (activated w) true (observer_watches w)).
  assert (H1 : dirs w1 = dirs w /\ observer_watches w1 = observer_watches w
               /\ modules_to_add_later w1 = modules_to_add_later w
               /\ started w1 = true
               /\ (started w = true -> observer_running w1 = observer_running w)).
  { unfold w1. destruct (started w) eqn:Es; cbn; repeat split; auto. discriminate. }
  destruct H1 as (D1 & W1 & L1 & S1 & O1). clearbody w1.
  set (w2 := mkWatcher (dirs w1) (modules_to_add_later w1) (old_dirs w1) (started w1)
                       (activated w1) (observer_running w1)
                       (observer_watches w1 ++ map fst (dirs w1))).
  assert (Hw2 : tracked_dirs_watched w2).
  { intros d Hd. unfold w2 in *. cbn [dirs observer_watches] in *.
    apply in_or_app. right. apply dir_mem_In. exact Hd. }
  assert (H2 : dirs w2 = dirs w
               /\ observer_watches w2 = observer_watches w ++ map fst (dirs w)
               /\ modules_to_add_later w2 = modules_to_add_later w
               /\ started w2 = true /\ observer_running w2 = observer_running w1).
  { unfold w2. cbn. rewrite D1, W1, L1, S1. auto. }
  destruct H2 as (D2 & W2 & L2 & S2 & O2). clearbody w2.
  pose proof (foldl_add_module_fields (modules_to_add_later w2) w2) as F. cbn zeta in F.
  pose proof (foldl_add_module_watched (modules_to_add_later w2) w2 Hw2) as T3.
  assert (Hl3 : modules_to_add_later w = [] ->
                foldl (fun acc p => _add_module p acc) w2 (modules_to_add_later w2) = w2).
  { intros Hl. rewrite L2, Hl. reflexivity. }
  set (w3 := foldl (fun acc p => _add_module p acc) w2 (modules_to_add_later w2)) in *.
  clearbody w3. destruct F as (A & L & S & O & D & N). rewrite Hact.
  exists (mkWatcher (dirs w3) [] (old_dirs w3) (started w3) true
                    (observer_running w3) (observer_watches w3)).
  split; [reflexivity|]. split; [reflexivity|]. split; [reflexivity|].
  split; [cbn; rewrite S; exact S2|].
  split; [exact T3|].
  split; [intros Hnd; apply N; rewrite D2; exact Hnd|].
  split.
  - intros Hl. cbn. rewrite (Hl3 Hl). auto.
  - intros Hs. cbn. rewrite O, O2. apply O1. exact Hs.
Qed.

Lemma apply_method_consistent m w : consistent w -> consistent (apply_method m w).
Proof.
  intros Hc. pose proof Hc as (Hwatch & Hlater & Hnd).
  unfold FilewatchRuns.apply_method, call.
  destruct m as [path| | |].
  - unfold Filewatch.track_module. destruct (activated w) eqn:Ea.
    + split; [|split].
      * intros _. apply _add_module_watched, Hwatch. reflexivity.
      * intros _. cbn. apply Hlater. reflexivity.
      * apply _add_module_keys_nodup, Hnd.
    + split; [|split]; cbn; try (rewrite Ea; discriminate). exact Hnd.
  - destruct (activated w) eqn:Ea.
    + unfold Filewatch.activate. rewrite Ea. exact Hc.
    + destruct (activate_spec w Ea) as (w' & -> & A & L & _ & T & N & _).
      split; [intros _; exact T|]. split; [intros _; exact L | apply N, Hnd].
  - unfold deactivate. destruct (activated w) eqn:Ea.
    + split; [|split]; cbn; try discriminate. exact Hnd.
    + exact Hc.
  - cbn. split; [|split]; cbn.
    + intros _ d Hd. discriminate.
    + reflexivity.
    + constructor.
Qed.

Lemma run_consistent paths ms : consistent (run paths ms).
Proof.
  unfold FilewatchRuns.run.
  assert (H : forall w, consistent w -> consistent (foldl (fun w m => apply_method m w) w ms)).
  { induction ms as [|m ms IH]; intros w Hw; [exact Hw|].
    simpl. apply IH, apply_method_consistent, Hw. }
  apply H, init_consistent.
Qed.

(** X11. Whatever calls were made on a handler since its construction,
    while it is activated every directory that has a tracked module is
    watched by the observer; a module tracked in an activated handler is
    watched at once. *)
Theorem activated_handler_watches_tracked_dirs (paths : list string) (ms : list Method) :
  activated (run paths ms) = true -> tracked_dirs_watched (run paths ms).
Proof. intros Ha. apply (run_consistent paths ms). exact Ha. Qed.

(** X12. Activation conflicts. A handler that is not activated can be
    activated once: the call sets [activated] and [started], empties the
    list of modules to add later, and a second [activate] raises
    [ValueError]. It can then be deactivated once, which keeps the tracked
    directories and removes every watch, and a second [deactivate] raises
    [ValueError]. *)
Theorem activate_deactivate_conflicts (w : Watcher) :
  activated w = false ->
  deactivate w = Raise ValueError
  /\ exists w1,
       activate w = Ok w1 /\ activated w1 = true /\ started w1 = true
       /\ modules_to_add_later w1 = []
       /\ activate w1 = Raise ValueError
       /\ exists w2,
            deactivate w1 = Ok w2 /\ activated w2 = false
            /\ dirs w2 = dirs w1 /\ observer_watches w2 = []
            /\ deactivate w2 = Raise ValueError.
Proof.
  intros Ha. split; [unfold deactivate; rewrite Ha; reflexivity|].
  destruct (activate_spec w Ha) as (w1 & H1 & A1 & L1 & S1 & _).
  exists w1. split; [exact H1|]. split; [exact A1|]. split; [exact S1|].
  split; [exact L1|]. split; [unfold Filewatch.activate; rewrite A1; reflexivity|].
  eexists. split; [unfold deactivate; rewrite A1; reflexivity|].
  cbn. auto.
Qed.

(** X13. Deactivating a handler and activating it again keeps the tracked
    modules and asks the observer for one watch per tracked directory, each
    directory once. *)
Theorem reactivation_restores_watches (paths : list string) (ms : list Method) :
  let w := run paths ms in
  activated w = true ->
  exists w1 w2,
    deactivate w = Ok w1 /\ activate w1 = Ok w2
    /\ activated w2 = true
    /\ dirs w2 = dirs w
    /\ observer_watches w2 = map fst (dirs w)
    /\ NoDup (observer_watches w2).
Proof.
  intros w Ha. destruct (run_consistent paths ms) as (_ & Hlater & Hnd).
  fold w in Hlater, Hnd. specialize (Hlater Ha).
  set (w1 := mkWatcher (dirs w) (modules_to_add_later w) (old_dirs w) (started w)
                       false (observer_running w) []).
  destruct (activate_spec w1 eq_refl) as (w2 & H2 & A2 & _ & _ & _ & _ & Hkeep & _).
  destruct (Hkeep Hlater) as [D2 W2]. cbn [dirs observer_watches w1 app] in D2, W2.
  exists w1, w2. split; [unfold deactivate; rewrite Ha; reflexivity|].
  split; [exact H2|]. split; [exact A2|]. split; [exact D2|]. split; [exact W2|].
  rewrite W2. exact Hnd.
Qed.

Lemma _add_module_with_later later path w :
  _add_module path (with_later later w) = with_later later (_add_module path w).
Proof. reflexivity. Qed.

Lemma foldl_add_module_with_later later paths : forall w,
  foldl (fun acc p => _add_module p acc) (with_later later w) paths
  = with_later later (foldl (fun acc p => _add_module p acc) w paths).
Proof.
  induction paths as [|p paths IH]; intros w; [reflexivity|].
  cbn [foldl]. rewrite _add_module_with_later. apply IH.
Qed.

(** A successful activation, step by step. *)
Lemma activate_steps w :
  activated w = false ->
  activate w
  = Ok (mark_activated
          (foldl (fun acc p => _add_module p acc) (start_and_schedule w)
                 (modules_to_add_later w))).
Proof.
  intros Ha. destruct w as [d l o s a r ws]. cbn in Ha. subst a.
  unfold Filewatch.activate, start_and_schedule, mark_activated.
  destruct s; reflexivity.
Qed.

Lemma _add_module_mark_activated path w :
  _add_module path (mark_activated w) = mark_activated (_add_module path w).
Proof. reflexivity. Qed.

(** X14. A module that is tracked while the handler is not activated is
    only remembered, and the activation then adds it after the modules
    remembered before it: activating after the call gives the same handler
    as activating first and tracking the module in the activated
    handler. *)
Theorem track_module_before_activation (path : string) (w : Watcher) :
  activated w = false ->
  track_module path w = _add_module_later path w
  /\ activate (track_module path w)
     = match activate w with
       | Ok w' => Ok (track_module path w')
       | Raise err => Raise err
       end.
Proof.
  intros Ha.
  assert (Ht : track_module path w = with_later (modules_to_add_later w ++ [path]) w).
  { unfold Filewatch.track_module. rewrite Ha. reflexivity. }
  split; [unfold Filewatch.track_module; rewrite Ha; reflexivity|].
  rewrite Ht, (activate_steps w Ha).
  rewrite (activate_steps (with_later (modules_to_add_later w ++ [path]) w) Ha).
  cbn [modules_to_add_later with_later].
  change (start_and_schedule (with_later (modules_to_add_later w ++ [path]) w))
    with (with_later (modules_to_add_later w ++ [path]) (start_and_schedule w)).
  rewrite foldl_add_module_with_later, foldl_app. cbn [foldl].
  unfold Filewatch.track_module at 1. cbn [activated mark_activated].
  rewrite _add_module_mark_activated. reflexivity.
Qed.

Lemma length_list_ascii_of_string s :
  length (list_ascii_of_string s) = String.length s.
Proof. induction s as [|a s IH]; simpl; [reflexivity|]. rewrite IH. reflexivity. Qed.

Lemma string_of_list_ascii_app l1 l2 :
  string_of_list_ascii (l1 ++ l2)
  = String.append (string_of_list_ascii l1) (string_of_list_ascii l2).
Proof. induction l1 as [|a l1 IH]; simpl; [reflexivity|]. rewrite IH. reflexivity. Qed.

(** Cutting a suffix off and putting it back. *)
Lemma slice_off_end_append s suffix :
  suffix <> EmptyString ->
  str_endswith s suffix = true ->
  String.append (slice_off_end (String.length suffix) s) suffix = s.
Proof.
  intros Hne Hend. unfold str_endswith in Hend. apply endswith_inv in Hend as [b Hb].
  unfold slice_off_end. destruct (String.length suffix) as [|n] eqn:Hlen.
  - destruct suffix; [contradiction | discriminate].
  - rewrite <- Hlen, <- !length_list_ascii_of_string, Hb, length_app.
    replace (length b + length (list_ascii_of_string suffix)
             - length (list_ascii_of_string suffix)) with (length b) by lia.
    rewrite take_app_length.
    rewrite <- (string_of_list_ascii_of_string suffix) at 1.
    rewrite <- string_of_list_ascii_app, <- Hb.
    apply string_of_list_ascii_of_string.
Qed.

Lemma dir_get_dir_add d path dirs : path ∈ dir_get d (dir_add d path dirs).
Proof.
  unfold dir_get. induction dirs as [|[k v] dirs IH]; simpl.
  - rewrite String.eqb_refl. simpl. set_solver.
  - destruct (String.eqb k d) eqn:Ekd; simpl; rewrite Ekd; [simpl; set_solver | exact IH].
Qed.

(** X15. A change of a tracked module is reported. When a [.py] file is
    tracked in an activated handler, the event for that file calls
    [on_change] with the file as the one modified file. *)
Theorem tracked_module_change_is_reported (path : string) (w : Watcher) :
  activated w = true ->
  List.find (str_endswith (abspath path)) SUFFIXES = Some ".py"%string ->
  dirname (strip_suffix SUFFIXES (abspath path)) = dirname (abspath path) ->
  snd (on_any_event dirname (abspath path) (track_module path w))
  = Some [abspath path].
Proof.
  intros Ha Hsuf Hdir.
  assert (Hend : str_endswith (abspath path) ".py" = true).
  { apply find_some in Hsuf. apply Hsuf. }
  assert (Hstem : String.append (strip_suffix SUFFIXES (abspath path)) ".py" = abspath path).
  { unfold strip_suffix. rewrite Hsuf.
    apply (slice_off_end_append (abspath path) ".py"); [discriminate | exact Hend]. }
  unfold Filewatch.track_module. rewrite Ha.
  unfold on_any_event, Filewatch._add_module. cbn [dirs]. rewrite <- Hdir.
  set (stem := strip_suffix SUFFIXES (abspath path)) in *.
  assert (Hex : existsb (String.eqb (abspath path))
                  (map (fun p => String.append p ".py")
                     (elements (dir_get (dirname stem) (dir_add (dirname stem) stem (dirs w)))))
                = true).
  { apply existsb_exists. exists (abspath path). split; [|apply String.eqb_refl].
    rewrite <- Hstem at 1.
    apply (in_map (fun p => String.append p ".py") _ stem).
    apply list_elem_of_In, elem_of_elements. apply dir_get_dir_add. }
  rewrite Hex. reflexivity.
Qed.

(** X16. Only tracked modules are reported. When [on_any_event] calls
    [on_change], the list of modified files is the path of the event
    alone, and that path is a module path tracked under its directory
    followed by [.py]; events for other files call nothing. *)
Theorem on_any_event_reports_only_tracked (src_path : string) (w : Watcher) :
  match snd (on_any_event dirname src_path w) with
  | Some files =>
      files = [src_path]
      /\ exists stem,
           src_path = String.append stem ".py"
           /\ stem ∈ dir_get (dirname src_path) (dirs w)
  | None =>
      forall stem,
        stem ∈ dir_get (dirname src_path) (dirs w) ->
        src_path <> String.append stem ".py"
  end.
Proof.
  unfold on_any_event.
  destruct (existsb (String.eqb src_path)
              (map (fun path => String.append path ".py")
                 (elements (dir_get (dirname src_path) (dirs w))))) eqn:Hex; cbn [snd].
  - split; [reflexivity|]. apply existsb_exists in Hex as (x & Hin & Heq).
    apply String.eqb_eq in Heq. subst x. apply in_map_iff in Hin as (stem & Hs & Hin).
    exists stem. split; [symmetry; exact Hs|]. apply elem_of_elements, list_elem_of_In, Hin.
  - intros stem Hin Heq.
    assert (Htrue : existsb (String.eqb src_path)
              (map (fun path => String.append path ".py")
                 (elements (dir_get (dirname src_path) (dirs w)))) = true).
    { apply existsb_exists. exists src_path. split; [|apply String.eqb_refl].
      rewrite Heq at 1.
      apply (in_map (fun p => String.append p ".py") _ stem).
      apply list_elem_of_In, elem_of_elements, Hin. }
    rewrite Htrue in Hex. discriminate.
Qed.

End FilewatchMore.

(** ** [main] *)

Section MainMore.

Import Driver DriverRuns MainProgram.

Context {X Value Frame ExitValue : Type}.
Variable M : MainExternals X Value Frame ExitValue.

Local Abbreviation E := (driver M).
Local Abbreviation Repl := (Repl X Value).

(** X17. The log level of [main]. Without [--log] the level is [ERROR],
    with one it is [INFO], with two or more it is [DEBUG]: the count is
    clamped to the last index, so the subscript never raises. *)
Theorem chosen_level_clamped (n : nat) :
  chosen_level None = Ok ERROR
  /\ chosen_level (Some (Z.of_nat n))
     = Ok (match n with 0 => ERROR | 1 => INFO | _ => DEBUG end).
Proof.
  split; [reflexivity|].
  destruct n as [|[|[|n]]]; try reflexivity.
  unfold chosen_level, effective_log, logging_levels, default.
  change (Z.of_nat (length [ERROR; INFO; DEBUG]) - 1)%Z with 2%Z.
  cbn [id from_option].
  rewrite Z.min_l by lia. reflexivity.
Qed.

Lemma on_world_fields (f : X -> X) (r : Repl) :
  trace (on_world f r) = trace r
  /\ locals (on_world f r) = locals r
  /\ scroll_offset (on_world f r) = scroll_offset r.
Proof. auto. Qed.

(** The state in which [main] looks at [exec_args]. *)
Lemma main_unfold options exec_args banner fuel steps rounds (r : Repl) level :
  chosen_level (o_log options) = Ok level ->
  exists r0 : Repl,
    trace r0 = trace r /\ locals r0 = locals r
    /\ scroll_offset r0 = scroll_offset r
    /\ main M options exec_args banner fuel steps rounds r
       = match prepare M options exec_args r0 with
         | (EarlyReturn value, r) => (Exit value, r)
         | (EarlyRaise err, r) => (Propagated err, r)
         | (GoOn interp_given paste, r) =>
             let r := if o_quiet options then r
                      else on_world (print_version_banner M) r in
             let r := match banner with
                      | Some text => on_world (print_banner M text) r
                      | None => r
                      end in
             run_repl M interp_given paste fuel steps rounds r
         end.
Proof.
  intros Hl. unfold main. rewrite Hl. cbv zeta.
  eexists. split; [|split; [|split; [|reflexivity]]];
    destruct (effective_log (o_log options) =? 0)%Z; reflexivity.
Qed.

(** X18. Running code without a session. When [exec_args] is not empty and
    neither [--paste] nor [--interactive] is given, [main] returns
    [extract_exit_value] of the arguments of the [SystemExit] the code
    raised, an instance of a subclass included, or of the empty tuple when
    the code returned; an exception that is no [SystemExit] leaves [main].
    No REPL is made: nothing is entered, painted or dispatched, and the
    namespace is the one the code left. *)
Theorem main_exec_only options source rest banner fuel steps rounds (r : Repl) level :
  chosen_level (o_log options) = Ok level ->
  o_paste options = false ->
  o_interactive options = false ->
  exists w0,
    let ran := exec_code M (source :: rest) (locals r) w0 in
    let done := main M options (source :: rest) banner fuel steps rounds r in
    done.1 = match ran.1.1 with
             | Ok _ => Exit (extract_exit_value M (Some []))
             | Raise err =>
                 if isinstance_SystemExit err
                 then Exit (extract_exit_value M (Some (exit_args err)))
                 else Propagated err
             end
    /\ trace done.2 = trace r
    /\ locals done.2 = ran.1.2
    /\ scroll_offset done.2 = scroll_offset r.
Proof.
  intros Hl Hp Hi.
  destruct (main_unfold options (source :: rest) banner fuel steps rounds r level Hl)
    as (r0 & T & L & S & ->).
  exists (world r0). cbv zeta. unfold prepare. rewrite Hp, Hi, L.
  destruct (exec_code M (source :: rest) (locals r) (world r0)) as [[out ns] w].
  cbn [fst snd].
  destruct out as [u|err]; [|destruct (isinstance_SystemExit err)];
    cbn [fst snd set_world set_locals trace locals scroll_offset]; auto.
Qed.



End MainMore.

(** ** The further properties at concrete inputs *)

Section MoreConcreteInputs.

Import Preprocess Coalescer CoalescerRuns Driver DriverClaims DriverRuns.
Import Filewatch FilewatchRuns MainProgram.

Open Scope string_scope.

(** X3 at a text of two lines, neither of them empty. *)
Lemma indent_empty_lines_without_blank_lines_witness :
  indent_empty_lines (py "a" ++ [nl] ++ py "b" ++ [nl])%list tt
  = (py "a" ++ [nl] ++ py "b" ++ [nl])%list.
Proof.
  apply (proj1 (indent_empty_lines_without_blank_lines tt)).
  - discriminate.
  - repeat constructor; discriminate.
Defined.

(** X4 at an assignment, which has no [!] at all. *)
Lemma desugar_unchanged_iff_witness :
  endswith (py "x = 1") (py "??") = false
  /\ (desugar example_parse example_unparse (py "x = 1") = Ok (py "x = 1")
      <-> forall l r, py "x = 1" = (l ++ bang :: r)%list ->
                      forallb is_ascii_letter r = false).
Proof.
  split; [reflexivity|].
  apply (desugar_unchanged_iff example_parse example_unparse (py "x = 1")).
  reflexivity.
Defined.

(** X5 at three key presses, a structured event and one more key press. *)
Lemma coalescer_keeps_key_presses_witness :
  no_paste [Keystroke "a"; Keystroke "b"; Keystroke "c";
            Structured ReloadEvent; Keystroke "d"]
  /\ reachable combined_events
  /\ exists ys g' script',
       sends (list Raw) script_send 3 10 [None; Some 0%Z; None] combined_events
         [Keystroke "a"; Keystroke "b"; Keystroke "c";
          Structured ReloadEvent; Keystroke "d"]
       = Some (ys, g', script')
       /\ (keys_of ys ++ pending g' ++ keys_of script')%list
          = (pending combined_events
             ++ keys_of [Keystroke "a"; Keystroke "b"; Keystroke "c";
                         Structured ReloadEvent; Keystroke "d"])%list.
Proof.
  assert (Hn : no_paste [Keystroke "a"; Keystroke "b"; Keystroke "c";
                         Structured ReloadEvent; Keystroke "d"])
    by (repeat constructor).
  assert (Hr : reachable combined_events) by (intros H; reflexivity).
  split; [exact Hn|]. split; [exact Hr|].
  apply (coalescer_keeps_key_presses 3 10 [None; Some 0%Z; None] combined_events
           _ Hn Hr).
  simpl. lia.
Defined.

(** X6 at the same run: its one paste event has three key presses. *)
Lemma coalescer_paste_reaches_threshold_witness :
  no_paste [Keystroke "a"; Keystroke "b"; Keystroke "c";
            Structured ReloadEvent; Keystroke "d"]
  /\ reachable combined_events
  /\ exists ys g' script',
       sends (list Raw) script_send 3 10 [None; Some 0%Z; None] combined_events
         [Keystroke "a"; Keystroke "b"; Keystroke "c";
          Structured ReloadEvent; Keystroke "d"]
       = Some (ys, g', script')
       /\ Forall (paste_reaches 3) ys.
Proof.
  assert (Hn : no_paste [Keystroke "a"; Keystroke "b"; Keystroke "c";
                         Structured ReloadEvent; Keystroke "d"])
    by (repeat constructor).
  assert (Hr : reachable combined_events) by (intros H; reflexivity).
  split; [exact Hn|]. split; [exact Hr|].
  apply (coalescer_paste_reaches_threshold 3 10 [None; Some 0%Z; None]
           combined_events _ Hn Hr).
  simpl. lia.
Defined.

(** X7 at a first [send(5)]: the provider is sent 5 once and then 0 for
    each probe. *)
Lemma coalescer_reads_provider_witness :
  reachable combined_events
  /\ (pending combined_events = [] ->
      exists n, [Some 5%Z; Some 0%Z; Some 0%Z; Some 0%Z]
                = ([] ++ Some 5%Z :: replicate n (Some 0%Z))%list).
Proof.
  assert (Hr : reachable combined_events) by (intros H; reflexivity).
  split; [exact Hr|].
  exact (proj2 (coalescer_reads_provider (list Raw) script_send 3 10 (Some 5%Z)
                  combined_events
                  [Keystroke "a"; Keystroke "b"; Keystroke "c"; Structured ReloadEvent]
                  [] [] [Some 5%Z; Some 0%Z; Some 0%Z; Some 0%Z]
                  (Structured (PasteEvent ["a"; "b"; "c"])) (mkGen AtYield [])
                  Hr eq_refl)).
Defined.

(** X10 at collaborators whose [runsource] binds nothing: the import of
    [_Helper] had no effect. *)
Lemma mainloop_failed_injection_witness :
  mainloop example_externals_without_helper true None 5 5 5 (example_repl [])
  = (Raised (KeyError "_Helper"),
     set_locals
       (delete "_repl"
          (locals (after_injection example_externals_without_helper (example_repl []))))
       (after_injection example_externals_without_helper (example_repl [])))
  /\ trace (mainloop example_externals_without_helper true None 5 5 5
              (example_repl [])).2
     = trace (example_repl []).
Proof.
  apply (proj1 (mainloop_failed_injection example_externals_without_helper
                  None 5 5 5 (example_repl []))).
  - exists 0%Z. reflexivity.
  - reflexivity.
Defined.

(** A handler for one module, activated, with a second module tracked
    afterwards. *)
Local Abbreviation example_run :=
  (run example_suffixes (fun path => path) example_dirname
     ["/a/m.py"] [call_activate; call_track_module "/b/n.py"]).

(** X11 at this handler. *)
Lemma activated_handler_watches_tracked_dirs_witness :
  activated example_run = true /\ tracked_dirs_watched example_run.
Proof.
  split; [reflexivity|].
  apply (activated_handler_watches_tracked_dirs example_suffixes (fun path => path)
           example_dirname ["/a/m.py"] [call_activate; call_track_module "/b/n.py"]).
  reflexivity.
Defined.

(** X12 at a handler that was just made. *)
Lemma activate_deactivate_conflicts_witness :
  activated (init example_suffixes (fun path => path) example_dirname ["/a/m.py"])
  = false
  /\ deactivate (init example_suffixes (fun path => path) example_dirname ["/a/m.py"])
     = Raise ValueError.
Proof.
  split; [reflexivity|].
  exact (proj1 (activate_deactivate_conflicts example_suffixes (fun path => path)
                  example_dirname
                  (init example_suffixes (fun path => path) example_dirname ["/a/m.py"])
                  eq_refl)).
Defined.

(** X13 at the handler above. *)
Lemma reactivation_restores_watches_witness :
  activated example_run = true
  /\ exists w1 w2,
       deactivate example_run = Ok w1
       /\ activate example_suffixes (fun path => path) example_dirname w1 = Ok w2
       /\ activated w2 = true
       /\ dirs w2 = dirs example_run
       /\ observer_watches w2 = map fst (dirs example_run)
       /\ NoDup (observer_watches w2).
Proof.
  split; [reflexivity|].
  apply (reactivation_restores_watches example_suffixes (fun path => path)
           example_dirname ["/a/m.py"] [call_activate; call_track_module "/b/n.py"]).
  reflexivity.
Defined.

(** X14 at a handler that was just made. *)
Lemma track_module_before_activation_witness :
  activated (init example_suffixes (fun path => path) example_dirname ["/a/m.py"])
  = false
  /\ track_module example_suffixes (fun path => path) example_dirname "/b/n.py"
       (init example_suffixes (fun path => path) example_dirname ["/a/m.py"])
     = _add_module_later "/b/n.py"
         (init example_suffixes (fun path => path) example_dirname ["/a/m.py"]).
Proof.
  split; [reflexivity|].
  exact (proj1 (track_module_before_activation example_suffixes (fun path => path)
                  example_dirname "/b/n.py"
                  (init example_suffixes (fun path => path) example_dirname ["/a/m.py"])
                  eq_refl)).
Defined.

(** X15 at a module tracked by the handler above. *)
Lemma tracked_module_change_is_reported_witness :
  activated example_run = true
  /\ List.find (str_endswith "/b/o.py") example_suffixes = Some ".py"
  /\ example_dirname (strip_suffix example_suffixes "/b/o.py") = example_dirname "/b/o.py"
  /\ snd (on_any_event example_dirname "/b/o.py"
            (track_module example_suffixes (fun path => path) example_dirname
               "/b/o.py" example_run))
     = Some ["/b/o.py"].
Proof.
  split; [reflexivity|]. split; [reflexivity|]. split; [reflexivity|].
  exact (tracked_module_change_is_reported example_suffixes (fun path => path)
           example_dirname "/b/o.py" example_run eq_refl eq_refl eq_refl).
Defined.

(** X18 at code that binds [x] and raises [SystemExit(3)]. *)
Lemma main_exec_only_witness :
  chosen_level None = Ok ERROR
  /\ exists w0,
       let ran := exec_code example_main_externals ["script.py"]
                    (locals (example_repl [])) w0 in
       let done := main example_main_externals (mkOptions None false false true)
                     ["script.py"] None 5 5 5 (example_repl []) in
       done.1 = match ran.1.1 with
                | Ok _ =>
                    Exit (extract_exit_value example_main_externals (Some []))
                | Raise err =>
                    if isinstance_SystemExit err
                    then Exit (extract_exit_value example_main_externals
                                 (Some (exit_args err)))
                    else Propagated err
                end
       /\ trace done.2 = trace (example_repl [])
       /\ locals done.2 = ran.1.2
       /\ scroll_offset done.2 = scroll_offset (example_repl []).
Proof.
  split; [reflexivity|].
  exact (main_exec_only example_main_externals (mkOptions None false false true)
           "script.py" [] None 5 5 5 (example_repl []) ERROR eq_refl eq_refl eq_refl).
Defined.

(** [main] on these collaborators: the code's [SystemExit(3)] gives the
    exit value 3, and with [--paste] the session that [<Ctrl-d>] ends
    returns no exit value and leaves the window and the input generator. *)
Example main_exec_exit_value :
  (main example_main_externals (mkOptions None false false true)
     ["script.py"] None 5 5 5 (example_repl [])).1
  = Exit (Some 3%Z).
Proof. reflexivity. Qed.

Example main_paste_session :
  let done := main example_main_externals (mkOptions (Some 2%Z) true false true)
                ["script.py"] None 20 5 5 (example_repl [Keystroke "<Ctrl-d>"]) in
  done.1 = Exit None
  /\ released (new_calls (example_repl [Keystroke "<Ctrl-d>"]) done.2)
     = [InputGenerator; Window; InputGenerator].
Proof. vm_compute. split; reflexivity. Qed.

End MoreConcreteInputs.
